(** * gwr: watch-stream multiplexing, coalescing buffer and server handle

    A shallow embedding of [protocol/chan_buf.go], [marshaled.go] and
    [serve.go], with the properties of the design document stated over it.

    Conventions.
    - A Go byte slice is a [list byte]; a Go string is a [string].
    - A Go [error] result is an [option] of an error value, [None] being
      [nil].
    - Objects that live outside the package (writers, the data source, the
      concrete server) act on an abstract world state that is threaded
      through every call. *)

From stdpp Require Import base option list strings gmap.
Abbreviation bytes := (list Byte.byte).

(* ===================================================================== *)
(** ** protocol/chan_buf.go *)
(* ===================================================================== *)

Module ChanBuf.

(** [errBufClosed], the only error this file produces. *)
Inductive error := errBufClosed.

(** [chanBuf].  The embedded [sync.Mutex] serialises the bodies of [Write]
    and [drain]; each is modelled as one atomic transition.  The embedded
    [bytes.Buffer] is its unread content [buffer].  The scratch slice [p] is
    kept with its capacity [p_cap].  [ident] stands for the pointer that a
    buffer sends about itself. *)
Record chanBuf := mkChanBuf {
  ident   : nat;
  buffer  : bytes;
  closed  : bool;
  pending : bool;
  p       : bytes;
  p_cap   : nat
}.

(** The send side of [ready chan<- *chanBuf]: the sequence of buffer
    references sent so far. *)
Definition readyChan := list nat.

Definition close (cb : chanBuf) : chanBuf :=
  mkChanBuf (ident cb) (buffer cb) true (pending cb) (p cb) (p_cap cb).

(** [bytes.Buffer.Len]. *)
Definition Len (cb : chanBuf) : nat := length (buffer cb).

(** [chanBuf.Reset]: clears [pending] and empties the buffer. *)
Definition Reset (cb : chanBuf) : chanBuf :=
  mkChanBuf (ident cb) [] (closed cb) false (p cb) (p_cap cb).

(** [chanBuf.Write].  [bytes.Buffer.Write] appends and returns
    [(len(p), nil)].  The result is [(n, err)], the new buffer and the new
    channel content. *)
Definition Write (q : bytes) (cb : chanBuf) (ch : readyChan)
  : (nat * option error) * chanBuf * readyChan :=
  if closed cb then ((0, Some errBufClosed), cb, ch)
  else
    let n := length q in
    let cb1 := mkChanBuf (ident cb) (buffer cb ++ q) (closed cb)
                         (pending cb) (p cb) (p_cap cb) in
    if (0 <? n) && negb (pending cb1) then
      let cb2 := mkChanBuf (ident cb1) (buffer cb1) (closed cb1) true
                           (p cb1) (p_cap cb1) in
      ((n, None), cb2, ch ++ [ident cb2])
    else ((n, None), cb1, ch).

(** [chanBuf.drain]: grows [p] when its capacity is short, copies the
    buffer into [p[:cap(p)]], truncates [p] to the copied length and
    resets. *)
Definition drain (cb : chanBuf) : bytes * chanBuf :=
  let cap1 := if p_cap cb <? Len cb then Len cb else p_cap cb in
  let n := Nat.min cap1 (Len cb) in
  let p1 := take n (buffer cb) in
  let cb1 := mkChanBuf (ident cb) (buffer cb) (closed cb) (pending cb) p1 cap1 in
  (p1, Reset cb1).

(** A run of [Write] calls with no [drain] in between. *)
Fixpoint writes (qs : list bytes) (cb : chanBuf) (ch : readyChan)
  : chanBuf * readyChan :=
  match qs with
  | [] => (cb, ch)
  | q :: qs' => let '(_, cb', ch') := Write q cb ch in writes qs' cb' ch'
  end.

(** [chanBuf.writeTo]: hands the drained bytes to [w.Write].  The writer
    is any function on a state of its own. *)
Definition writeTo {W E : Type} (w_Write : bytes → W → (nat * option E) * W)
    (cb : chanBuf) (ω : W) : (nat * option E) * chanBuf * W :=
  let '(out, cb') := drain cb in
  let '(r, ω') := w_Write out ω in
  (r, cb', ω').

(** The calls a buffer receives.  Each body runs under the buffer's lock,
    so a history of a buffer is a sequence of them. *)
Inductive call :=
| DoWrite (q : bytes)
| DoDrain
| DoClose.

(** A history of calls: the slices handed out by the drains, in order, the
    last state of the buffer and the notifications sent. *)
Fixpoint run (calls : list call) (cb : chanBuf) (ch : readyChan)
  : list bytes * chanBuf * readyChan :=
  match calls with
  | [] => ([], cb, ch)
  | DoWrite q :: calls' =>
    let '(_, cb', ch') := Write q cb ch in run calls' cb' ch'
  | DoDrain :: calls' =>
    let '(out, cb') := drain cb in
    let '(outs, cb'', ch') := run calls' cb' ch in
    (out :: outs, cb'', ch')
  | DoClose :: calls' => run calls' (close cb) ch
  end.

(** The writes of a history that reach an open buffer: those before the
    first [close]. *)
Fixpoint accepted (is_closed : bool) (calls : list call) : list bytes :=
  match calls with
  | [] => []
  | DoWrite q :: calls' =>
    if is_closed then accepted is_closed calls'
    else q :: accepted is_closed calls'
  | DoDrain :: calls' => accepted is_closed calls'
  | DoClose :: calls' => accepted true calls'
  end.

(** The number of drains of a history. *)
Fixpoint drains (calls : list call) : nat :=
  match calls with
  | [] => 0
  | DoDrain :: calls' => S (drains calls')
  | _ :: calls' => drains calls'
  end.

End ChanBuf.

(* ===================================================================== *)
(** ** marshaled.go *)
(* ===================================================================== *)

Module Marshaled.

(** [GenericDataFormat]: a marshaling and a framing protocol.  Each method
    returns either bytes or an error of the format's own.  Formats are
    values without state. *)
Record GenericDataFormat (Data ExtErr : Type) := mkFormat {
  MarshalGet  : Data → ExtErr + bytes;
  MarshalInit : Data → ExtErr + bytes;
  MarshalItem : Data → ExtErr + bytes;
  FrameItem   : bytes → ExtErr + bytes
}.
Arguments mkFormat {Data ExtErr}.
Arguments MarshalGet {Data ExtErr}.
Arguments MarshalInit {Data ExtErr}.
Arguments MarshalItem {Data ExtErr}.
Arguments FrameItem {Data ExtErr}.

(** What lies outside [marshaled.go].

    - [Data]: the non-nil [interface{}] values of the data source; a
      possibly nil one is an [option Data].
    - [Writer]: the non-nil [io.Writer] values handed to [Get] and [Watch].
    - [ExtErr]: errors made by writers and formats.
    - [World]: the state of writers and of the data source.
    - [io_Write w buf]: [w.Write(buf)], of which every caller here keeps
      only the error.
    - [source_*]: the methods of the wrapped [GenericDataSource];
      [source_Watch] is [source.Watch(mds.emit)], the only watcher this
      file ever passes.
    - [LDJSONMarshal], [NewTemplatedMarshal]: the two built-in formats,
      declared elsewhere in the package.
    - [unicode_ToLower s]: [strings.Map(unicode.ToLower, s)] of the Go
      library, with its Unicode case tables and its treatment of invalid
      UTF-8; [strings.ToLower] goes through it for every string that holds
      a non-ASCII byte. *)
Class Env := {
  Data : Type;
  Template : Type;
  Writer : Type;
  ExtErr : Type;
  World : Type;
  io_Write : Writer → bytes → World → option ExtErr * World;
  source_TextTemplate : option Template;
  source_Get : World → option Data * World;
  source_GetInit : World → option Data * World;
  source_Watch : World → World;
  LDJSONMarshal : GenericDataFormat Data ExtErr;
  NewTemplatedMarshal : Template → GenericDataFormat Data ExtErr;
  unicode_ToLower : string → string
}.

(** Errors seen by callers: the package's sentinels, and errors passed on
    from a format or a writer. *)
Inductive error `{Env} :=
| ErrUnsupportedFormat
| ErrNotGetable
| errDefaultFrameWatcherDone
| ErrExternal (e : ExtErr).

(** Upper-case ASCII letters: ['A'] (65) to ['Z'] (90). *)
Definition is_upper (c : Ascii.ascii) : bool :=
  let n := Ascii.nat_of_ascii c in (65 <=? n) && (n <=? 90).

(** What lower-casing does to an ASCII byte: an upper-case letter moves
    up by 32 (['a' - 'A']), every other byte stays. *)
Definition lower_ascii (c : Ascii.ascii) : Ascii.ascii :=
  if is_upper c then Ascii.ascii_of_nat (Ascii.nat_of_ascii c + 32) else c.

Fixpoint lower_bytes (s : string) : string :=
  match s with
  | EmptyString => EmptyString
  | String c s' => String (lower_ascii c) (lower_bytes s')
  end.

(** Bytes below [utf8.RuneSelf] (0x80), and strings made of them. *)
Definition is_ascii (c : Ascii.ascii) : bool := Ascii.nat_of_ascii c <? 128.

Fixpoint all_ascii (s : string) : bool :=
  match s with
  | EmptyString => true
  | String c s' => is_ascii c && all_ascii s'
  end.

(** [strings.ToLower].  A string of ASCII bytes is lower-cased byte by
    byte; any other string is mapped rune by rune with [unicode.ToLower],
    which is the library's [unicode_ToLower].  (On a string of ASCII bytes
    the rune-by-rune mapping gives the same bytes, so it does not matter
    whether the library takes the short way for them.) *)
Definition ToLower `{Env} (s : string) : string :=
  if all_ascii s then lower_bytes s else unicode_ToLower s.


(** The compaction loop shared, word for word, by
    [marshaledWatcher.emit] and [defaultFrameWatcher.writeToAll]:
<<
    for i, w := range all {
        if i != failed[0] { okay = append(okay, w) }
        if i >= failed[0] {
            failed = failed[1:]
            if len(failed) == 0 {
                if j := i + 1; j < len(all) { okay = append(okay, all[j:]...) }
                break
            }
        }
    }
>>
    The loop is entered with [failed] non-empty and leaves as soon as it
    is empty, so [failed] is carried as its head [f0] and tail [ftl];
    [rest] is the part of [all] from index [i] on. *)
Fixpoint compact {A} (all : list A) (i : nat) (rest : list A)
    (f0 : nat) (ftl : list nat) (okay : list A) : list A :=
  match rest with
  | [] => okay
  | x :: rest' =>
    let okay1 := if negb (i =? f0) then okay ++ [x] else okay in
    if f0 <=? i then
      match ftl with
      | [] =>
        let j := S i in
        if j <? length all then okay1 ++ drop j all else okay1
      | f1 :: ftl' => compact all (S i) rest' f1 ftl' okay1
      end
    else compact all (S i) rest' f0 ftl okay1
  end.

(** Names holding an upper-case ASCII letter. *)
Fixpoint has_upper (s : string) : bool :=
  match s with
  | EmptyString => false
  | String c s' => is_upper c || has_upper s'
  end.

(** A list with the positions in [F] taken out, the others kept in order;
    [remove_from F i l] numbers the positions of [l] from [i]. *)
Fixpoint remove_from {A} (F : gset nat) (i : nat) (l : list A) : list A :=
  match l with
  | [] => []
  | x :: l' =>
    if decide (i ∈ F) then remove_from F (S i) l'
    else x :: remove_from F (S i) l'
  end.

Definition remove_indices {A} (F : gset nat) (l : list A) : list A :=
  remove_from F 0 l.

(** The positions, numbered from [i], at which a list of flags is set. *)
Fixpoint flagged (i : nat) (flags : list bool) : list nat :=
  match flags with
  | [] => []
  | true :: flags' => i :: flagged (S i) flags'
  | false :: flags' => flagged (S i) flags'
  end.

(** The elements of [l] whose flag is not set. *)
Fixpoint survivors {A} (flags : list bool) (l : list A) : list A :=
  match flags, l with
  | true :: flags', _ :: l' => survivors flags' l'
  | false :: flags', x :: l' => x :: survivors flags' l'
  | _, _ => []
  end.

Section WithEnv.
Context `{Env}.

Abbreviation Format := (GenericDataFormat Data ExtErr).

(** [defaultFrameWatcher]. *)
Record defaultFrameWatcher := mkDfw {
  dfw_format : Format;
  writers    : list Writer
}.

(** [defaultFrameWatcher.init]. *)
Definition dfw_init (data : option Data) (w : Writer)
    (dfw : defaultFrameWatcher) (σ : World)
  : option error * defaultFrameWatcher * World :=
  let register := mkDfw (dfw_format dfw) (writers dfw ++ [w]) in
  match data with
  | Some d =>
    match MarshalInit (dfw_format dfw) d with
    | inl e => (Some (ErrExternal e), dfw, σ)
    | inr buf =>
      match FrameItem (dfw_format dfw) buf with
      | inl e => (Some (ErrExternal e), dfw, σ)
      | inr buf' =>
        match io_Write w buf' σ with
        | (Some e, σ') => (Some (ErrExternal e), dfw, σ')
        | (None, σ') => (None, register, σ')
        end
      end
    end
  | None => (None, register, σ)
  end.

(** First loop of [writeToAll]: write to each writer in turn and collect
    the indices of those that fail. *)
Fixpoint write_range (buf : bytes) (i : nat) (ws : list Writer)
    (failed : list nat) (σ : World) : list nat * World :=
  match ws with
  | [] => (failed, σ)
  | w :: ws' =>
    match io_Write w buf σ with
    | (Some _, σ') => write_range buf (S i) ws' (failed ++ [i]) σ'
    | (None, σ') => write_range buf (S i) ws' failed σ'
    end
  end.

(** [defaultFrameWatcher.writeToAll]. *)
Definition writeToAll (buf : bytes) (dfw : defaultFrameWatcher) (σ : World)
  : option error * defaultFrameWatcher * World :=
  let '(failed, σ') := write_range buf 0 (writers dfw) [] σ in
  match failed with
  | [] => (None, dfw, σ')
  | f0 :: ftl =>
    let okay := compact (writers dfw) 0 (writers dfw) f0 ftl [] in
    let dfw' := mkDfw (dfw_format dfw) okay in
    if length (writers dfw') =? 0
    then (Some errDefaultFrameWatcherDone, dfw', σ')
    else (None, dfw', σ')
  end.

(** [defaultFrameWatcher.HandleItem]. *)
Definition HandleItem (item : bytes) (dfw : defaultFrameWatcher) (σ : World)
  : option error * defaultFrameWatcher * World :=
  if length (writers dfw) =? 0 then (Some errDefaultFrameWatcherDone, dfw, σ)
  else
    match FrameItem (dfw_format dfw) item with
    | inl e => (Some (ErrExternal e), dfw, σ)
    | inr buf => writeToAll buf dfw σ
    end.

(** [defaultFrameWatcher.HandleItems]. *)
Fixpoint HandleItems_range (items : list bytes) (dfw : defaultFrameWatcher)
    (σ : World) : option error * defaultFrameWatcher * World :=
  match items with
  | [] => (None, dfw, σ)
  | item :: items' =>
    match FrameItem (dfw_format dfw) item with
    | inl e => (Some (ErrExternal e), dfw, σ)
    | inr buf =>
      match writeToAll buf dfw σ with
      | (Some e, dfw', σ') => (Some e, dfw', σ')
      | (None, dfw', σ') => HandleItems_range items' dfw' σ'
      end
    end
  end.

Definition HandleItems (items : list bytes) (dfw : defaultFrameWatcher)
    (σ : World) : option error * defaultFrameWatcher * World :=
  if length (writers dfw) =? 0 then (Some errDefaultFrameWatcherDone, dfw, σ)
  else HandleItems_range items dfw σ.

(** The [ItemWatcher] values held in [marshaledWatcher.watchers].  The one
    value ever appended there is [&gw.dfw], a pointer to the watcher's own
    fan-out: every entry of the list denotes that same object. *)
Inductive ItemWatcher := OwnDfw.

(** [marshaledWatcher]; its [source] is the one of the environment. *)
Record marshaledWatcher := mkWatcher {
  format   : Format;
  dfw      : defaultFrameWatcher;
  watchers : list ItemWatcher
}.

(** [newMarshaledWatcher]. *)
Definition newMarshaledWatcher (fmt : Format) : marshaledWatcher :=
  mkWatcher fmt (mkDfw fmt []) [].

(** [marshaledWatcher.init]. *)
Definition mw_init (w : Writer) (gw : marshaledWatcher) (σ : World)
  : option error * marshaledWatcher * World :=
  let '(data, σ0) := source_GetInit σ in
  match dfw_init data w (dfw gw) σ0 with
  | (Some e, d', σ') => (Some e, mkWatcher (format gw) d' (watchers gw), σ')
  | (None, d', σ') =>
    if length (writers d') =? 1
    then (None, mkWatcher (format gw) d' (watchers gw ++ [OwnDfw]), σ')
    else (None, mkWatcher (format gw) d' (watchers gw), σ')
  end.

(** [iw.HandleItem(item)] for an entry of [gw.watchers]: the call lands on
    the shared fan-out. *)
Definition iw_HandleItem (iw : ItemWatcher) (item : bytes)
    (d : defaultFrameWatcher) (σ : World)
  : option error * defaultFrameWatcher * World :=
  match iw with OwnDfw => HandleItem item d σ end.

(** First loop of [marshaledWatcher.emit]. *)
Fixpoint handle_range (item : bytes) (i : nat) (iws : list ItemWatcher)
    (failed : list nat) (d : defaultFrameWatcher) (σ : World)
  : list nat * defaultFrameWatcher * World :=
  match iws with
  | [] => (failed, d, σ)
  | iw :: iws' =>
    match iw_HandleItem iw item d σ with
    | (Some _, d', σ') => handle_range item (S i) iws' (failed ++ [i]) d' σ'
    | (None, d', σ') => handle_range item (S i) iws' failed d' σ'
    end
  end.

(** [marshaledWatcher.emit]. *)
Definition mw_emit (data : Data) (gw : marshaledWatcher) (σ : World)
  : bool * marshaledWatcher * World :=
  if length (watchers gw) =? 0 then (false, gw, σ)
  else
    match MarshalItem (format gw) data with
    | inl _ => (false, gw, σ)
    | inr item =>
      let '(failed, d', σ') := handle_range item 0 (watchers gw) [] (dfw gw) σ in
      match failed with
      | [] => (true, mkWatcher (format gw) d' (watchers gw), σ')
      | f0 :: ftl =>
        let okay := compact (watchers gw) 0 (watchers gw) f0 ftl [] in
        (negb (length okay =? 0), mkWatcher (format gw) d' okay, σ')
      end
    end.

(** [MarshaledDataSource]; its [source] is the one of the environment.
    [mds_watchers] maps a name to a [*marshaledWatcher]: each name owns a
    watcher of its own, so the pointees are kept in the map itself. *)
Record MarshaledDataSource := mkMds {
  formats      : gmap string Format;
  formatNames  : list string;
  mds_watchers : gmap string marshaledWatcher;
  watching     : bool
}.

(** The [for name, format := range formats] loop of
    [NewMarshaledDataSource], over the entries in the order visited. *)
Fixpoint register_formats (entries : list (string * Format))
    (names : list string) (ws : gmap string marshaledWatcher)
  : list string * gmap string marshaledWatcher :=
  match entries with
  | [] => (names, ws)
  | (name, fmt) :: entries' =>
    register_formats entries' (names ++ [name])
                     (<[name := newMarshaledWatcher fmt]> ws)
  end.

(** [NewMarshaledDataSource].  The [formats] map holds non-nil formats,
    so [formats["json"] == nil] is absence of the key.  Go visits a map in
    an unspecified order; [map_to_list] stands for one such order. *)
Definition NewMarshaledDataSource (fmts : gmap string Format)
  : MarshaledDataSource :=
  let '(names1, ws1) :=
    match fmts !! "json"%string with
    | None => (["json"%string],
               <["json"%string := newMarshaledWatcher LDJSONMarshal]> ∅)
    | Some _ => ([], (∅ : gmap string marshaledWatcher))
    end in
  let '(names2, ws2) :=
    match source_TextTemplate, fmts !! "text"%string with
    | Some tmpl, None =>
      (names1 ++ ["text"%string],
       <["text"%string := newMarshaledWatcher (NewTemplatedMarshal tmpl)]> ws1)
    | _, _ => (names1, ws1)
    end in
  let '(names3, ws3) := register_formats (map_to_list fmts) names2 ws2 in
  mkMds fmts names3 ws3 false.

(** [MarshaledDataSource.Formats]. *)
Definition Formats (mds : MarshaledDataSource) : list string :=
  formatNames mds.

(** [MarshaledDataSource.Get]. *)
Definition Get (formatName : string) (w : Writer)
    (mds : MarshaledDataSource) (σ : World) : option error * World :=
  match formats mds !! ToLower formatName with
  | None => (Some ErrUnsupportedFormat, σ)
  | Some fmt =>
    match source_Get σ with
    | (None, σ1) => (Some ErrNotGetable, σ1)
    | (Some data, σ1) =>
      match MarshalGet fmt data with
      | inl e => (Some (ErrExternal e), σ1)
      | inr buf =>
        match io_Write w buf σ1 with
        | (Some e, σ2) => (Some (ErrExternal e), σ2)
        | (None, σ2) => (None, σ2)
        end
      end
    end
  end.

(** [MarshaledDataSource.Watch]. *)
Definition Watch (formatName : string) (w : Writer)
    (mds : MarshaledDataSource) (σ : World)
  : option error * MarshaledDataSource * World :=
  let name := ToLower formatName in
  match mds_watchers mds !! name with
  | None => (Some ErrUnsupportedFormat, mds, σ)
  | Some watcher =>
    match mw_init w watcher σ with
    | (Some e, watcher', σ') =>
      (Some e,
       mkMds (formats mds) (formatNames mds)
             (<[name := watcher']> (mds_watchers mds)) (watching mds), σ')
    | (None, watcher', σ') =>
      let ws' := <[name := watcher']> (mds_watchers mds) in
      if negb (watching mds)
      then (None, mkMds (formats mds) (formatNames mds) ws' true,
            source_Watch σ')
      else (None, mkMds (formats mds) (formatNames mds) ws' (watching mds), σ')
    end
  end.

(** The [for _, watcher := range mds.watchers] loop of
    [MarshaledDataSource.emit], over the names in the order visited. *)
Fixpoint emit_range (data : Data) (names : list string)
    (ws : gmap string marshaledWatcher) (any : bool) (σ : World)
  : bool * gmap string marshaledWatcher * World :=
  match names with
  | [] => (any, ws, σ)
  | name :: names' =>
    match ws !! name with
    | None => emit_range data names' ws any σ
    | Some watcher =>
      let '(b, watcher', σ') := mw_emit data watcher σ in
      emit_range data names' (<[name := watcher']> ws)
                 (if b then true else any) σ'
    end
  end.

(** [MarshaledDataSource.emit], for a visiting order [names] of the
    watcher map (Go leaves the order of a map range unspecified). *)
Definition emit (names : list string) (data : Data)
    (mds : MarshaledDataSource) (σ : World)
  : bool * MarshaledDataSource * World :=
  if negb (watching mds) then (false, mds, σ)
  else
    let '(any, ws', σ') := emit_range data names (mds_watchers mds) false σ in
    if negb any
    then (any, mkMds (formats mds) (formatNames mds) ws' false, σ')
    else (any, mkMds (formats mds) (formatNames mds) ws' (watching mds), σ').

(** Which of the writes of one [writeToAll] pass fail, in writer order:
    the writes happen one after the other on the same world. *)
Fixpoint write_failures (buf : bytes) (ws : list Writer) (σ : World)
  : list bool :=
  match ws with
  | [] => []
  | w :: ws' =>
    match io_Write w buf σ with
    | (Some _, σ') => true :: write_failures buf ws' σ'
    | (None, σ') => false :: write_failures buf ws' σ'
    end
  end.

(** A source with the entry for [name] left out of both maps. *)
Definition forget (name : string) (mds : MarshaledDataSource)
  : MarshaledDataSource :=
  mkMds (delete name (formats mds)) (formatNames mds)
        (delete name (mds_watchers mds)) (watching mds).

(** A channel whose fan-out holds a sink and is registered for items. *)
Definition live (gw : marshaledWatcher) : Prop :=
  watchers gw = [OwnDfw] ∧ writers (dfw gw) ≠ [].

(** The two states a channel is meant to be in: no sink and nothing
    registered, or live. *)
Definition consistent (gw : marshaledWatcher) : Prop :=
  (watchers gw = [] ∧ writers (dfw gw) = []) ∨ live gw.


(** The world after [buf] was written to each writer of a list in turn,
    whatever the writes answered. *)
Definition write_each (buf : bytes) (ws : list Writer) (σ : World) : World :=
  foldl (λ σ' w, (io_Write w buf σ').2) σ ws.

(** [HandleItem] called for each item in turn, up to the first error. *)
Fixpoint handle_each (items : list bytes) (d : defaultFrameWatcher)
    (σ : World) : option error * defaultFrameWatcher * World :=
  match items with
  | [] => (None, d, σ)
  | item :: items' =>
    match HandleItem item d σ with
    | (Some e, d', σ') => (Some e, d', σ')
    | (None, d', σ') => handle_each items' d' σ'
    end
  end.

(** The calls a format channel receives, and a history of them. *)
Inductive channel_call :=
| Attach (w : Writer)
| Emit (data : Data).

Fixpoint run_channel (calls : list channel_call) (gw : marshaledWatcher)
    (σ : World) : marshaledWatcher * World :=
  match calls with
  | [] => (gw, σ)
  | Attach w :: calls' =>
    let '(_, gw', σ') := mw_init w gw σ in run_channel calls' gw' σ'
  | Emit data :: calls' =>
    let '(_, gw', σ') := mw_emit data gw σ in run_channel calls' gw' σ'
  end.

(** A channel whose format frames every item, and a source all of whose
    channels are consistent and of that kind. *)
Definition always_frames (gw : marshaledWatcher) : Prop :=
  ∀ b, ∃ buf, FrameItem (dfw_format (dfw gw)) b = inr buf.

Definition sound (mds : MarshaledDataSource) : Prop :=
  ∀ k gw, mds_watchers mds !! k = Some gw → consistent gw ∧ always_frames gw.

End WithEnv.

End Marshaled.

(* ===================================================================== *)
(** ** serve.go *)
(* ===================================================================== *)

Module Serve.

(** What lies outside [serve.go]: the concrete [ConfiguredServer] with its
    three methods, the non-nil [net.Addr] values, and the tag test of the
    [resp] package. *)
Class Env := {
  ConfiguredServer : Type;
  Addr : Type;
  SrvErr : Type;
  World : Type;
  srv_Addr : ConfiguredServer → World → option Addr * World;
  srv_StartOn : ConfiguredServer → string → World → option SrvErr * World;
  srv_Stop : ConfiguredServer → World → option SrvErr * World;
  IsFirstByteRespTag : bytes → bool
}.

(** [errNoServer], and errors passed on from the concrete server. *)
Inductive error `{Env} :=
| errNoServer
| ErrServer (e : SrvErr).

(** [stacked.Detector], over the handlers this file builds. *)
Inductive handler :=
| RedisConnection   (* hndl of respDetector *)
| DefaultHTTP.      (* stacked.DefaultHTTPHandler(hh) *)

Record Detector := mkDetector {
  Needed  : nat;
  Test    : bytes → bool;
  Handler : handler
}.

(** A [*bufio.Reader] over a connection: the bytes already pulled from the
    connection and not yet read, and the bytes still in the connection. *)
Record Reader := mkReader {
  buffered : bytes;
  pending_conn : bytes
}.

Section WithEnv.
Context `{Env}.

(** The methods of [indirectServer].  The handle holds a pointer to the
    package variable [theServer]; [srv] is [*(is.cs)], the content of that
    variable when the method runs ([None] for nil). *)
Definition is_Addr (srv : option ConfiguredServer) (σ : World)
  : option Addr * World :=
  match srv with
  | None => (None, σ)
  | Some s => srv_Addr s σ
  end.

Definition is_StartOn (srv : option ConfiguredServer) (laddr : string)
    (σ : World) : option error * World :=
  match srv with
  | None => (Some errNoServer, σ)
  | Some s => let '(e, σ') := srv_StartOn s laddr σ in (ErrServer <$> e, σ')
  end.

Definition is_Stop (srv : option ConfiguredServer) (σ : World)
  : option error * World :=
  match srv with
  | None => (Some errNoServer, σ)
  | Some s => let '(e, σ') := srv_Stop s σ in (ErrServer <$> e, σ')
  end.

(** The three operations under one type, to speak of all of them at once. *)
Inductive operation :=
| OpAddr
| OpStartOn (laddr : string)
| OpStop.

Inductive outcome :=
| GotAddr (a : option Addr)
| GotError (e : option error).

Definition run (o : operation) (srv : option ConfiguredServer) (σ : World)
  : outcome * World :=
  match o with
  | OpAddr => let '(a, σ') := is_Addr srv σ in (GotAddr a, σ')
  | OpStartOn laddr => let '(e, σ') := is_StartOn srv laddr σ in (GotError e, σ')
  | OpStop => let '(e, σ') := is_Stop srv σ in (GotError e, σ')
  end.

(** [respDetector]. *)
Definition respDetector : Detector :=
  mkDetector 1 IsFirstByteRespTag RedisConnection.

(** Modelled from the spec: [stacked.DefaultHTTPHandler], of the listener
    library, is not part of these sources.  It is the default every
    connection falls through to: it asks for no byte and accepts. *)
Definition DefaultHTTPHandler : Detector :=
  mkDetector 0 (λ _, true) DefaultHTTP.

(** [NewServer]: the detectors handed to [stacked.NewServer], in order. *)
Definition NewServer : list Detector := [respDetector; DefaultHTTPHandler].

(** Modelled from the spec: peeking on the connection's reader, which the
    listener library does and these sources do not show.  [Peek n] returns
    the first [n] unread bytes (fewer at end of stream) and reads none of
    them; it pulls from the connection only what the buffer lacks. *)
Definition Peek (n : nat) (r : Reader) : bytes * Reader :=
  let lack := n - length (buffered r) in
  let r' := mkReader (buffered r ++ take lack (pending_conn r))
                     (drop lack (pending_conn r)) in
  (take n (buffered r'), r').

Definition NewReader (stream : bytes) : Reader := mkReader [] stream.

(** What a handler given the reader will read, in order. *)
Definition readable (r : Reader) : bytes := buffered r ++ pending_conn r.

(** Modelled from the spec: the dispatch of an accepted connection by the
    listener library, absent from these sources (section 4.5 of the design
    document).  Each detector in turn peeks the bytes it needs and tests
    them; the first to accept gets the connection and the reader.  The
    result also lists what each test was shown. *)
Fixpoint dispatch (ds : list Detector) (r : Reader) (shown : list bytes)
  : option handler * Reader * list bytes :=
  match ds with
  | [] => (None, r, shown)
  | d :: ds' =>
    let '(b, r') := Peek (Needed d) r in
    if Test d b then (Some (Handler d), r', shown ++ [b])
    else dispatch ds' r' (shown ++ [b])
  end.

End WithEnv.

End Serve.

(* ===================================================================== *)
(** ** Concrete collaborators *)
(* ===================================================================== *)

(** A small world to run the definitions in: writers are numbered, the
    odd ones refuse every write; the world is the log of what happened; its
    library lower-cases the ASCII letters and no other. *)
Module Demo.

Inductive event :=
| Wrote (w : nat) (buf : bytes)
| Watched.

(** A line format: [n] is marshaled as [n] digits ['1'], a frame ends in
    a newline. *)
Definition lineFormat : Marshaled.GenericDataFormat nat nat :=
  Marshaled.mkFormat
    (λ n, inr (replicate n Byte.x31))
    (λ n, inr (replicate n Byte.x31))
    (λ n, inr (replicate n Byte.x31))
    (λ b, inr (b ++ [Byte.x0a])).

(** The same, but an empty item cannot be framed (error 2). *)
Definition frameFails : Marshaled.GenericDataFormat nat nat :=
  Marshaled.mkFormat
    (λ n, inr (replicate n Byte.x31))
    (λ n, inr (replicate n Byte.x31))
    (λ n, inr (replicate n Byte.x31))
    (λ b, match b with [] => inl 2 | _ => inr (b ++ [Byte.x0a]) end).

(** The same as [lineFormat], but item [0] cannot be marshaled (error 3). *)
Definition marshalFails : Marshaled.GenericDataFormat nat nat :=
  Marshaled.mkFormat
    (λ n, inr (replicate n Byte.x31))
    (λ n, inr (replicate n Byte.x31))
    (λ n, match n with 0 => inl 3 | _ => inr (replicate n Byte.x31) end)
    (λ b, inr (b ++ [Byte.x0a])).

#[export] Instance env : Marshaled.Env := {|
  Marshaled.Data := nat;
  Marshaled.Template := unit;
  Marshaled.Writer := nat;
  Marshaled.ExtErr := nat;
  Marshaled.World := list event;
  Marshaled.io_Write := λ w buf σ,
    if Nat.even w then (None, σ ++ [Wrote w buf]) else (Some 1, σ);
  Marshaled.source_TextTemplate := None;
  Marshaled.source_Get := λ σ, (Some 5, σ);
  Marshaled.source_GetInit := λ σ, (None, σ);
  Marshaled.source_Watch := λ σ, σ ++ [Watched];
  Marshaled.LDJSONMarshal := lineFormat;
  Marshaled.NewTemplatedMarshal := λ _, lineFormat;
  Marshaled.unicode_ToLower := Marshaled.lower_bytes
|}.

(** A fan-out and a format channel of this world. *)
Definition fanout (fmt : Marshaled.GenericDataFormat nat nat)
    (ws : list nat) : Marshaled.defaultFrameWatcher :=
  @Marshaled.mkDfw env fmt ws.

Definition channel (fmt : Marshaled.GenericDataFormat nat nat)
  : Marshaled.marshaledWatcher :=
  @Marshaled.newMarshaledWatcher env fmt.

(** A server that answers on address 80 and records its calls. *)
Inductive call := Started (laddr : string) | Stopped.

#[export] Instance server : Serve.Env := {|
  Serve.ConfiguredServer := unit;
  Serve.Addr := nat;
  Serve.SrvErr := nat;
  Serve.World := list call;
  Serve.srv_Addr := λ _ σ, (Some 80, σ);
  Serve.srv_StartOn := λ _ laddr σ, (None, σ ++ [Started laddr]);
  Serve.srv_Stop := λ _ σ, (None, σ ++ [Stopped]);
  Serve.IsFirstByteRespTag := λ b,
    match b with
    | [c] => existsb (Byte.eqb c) [Byte.x2b; Byte.x2d; Byte.x3a; Byte.x24; Byte.x2a]
    | _ => false
    end
|}.

End Demo.

(* ===================================================================== *)
(** ** Properties of the coalescing buffer *)
(* ===================================================================== *)

Module ChanBufFacts.
Import ChanBuf.

Lemma drain_returns_buffer cb : (drain cb).1 = buffer cb.
Proof.
  unfold drain, Len; simpl.
  destruct (p_cap cb <? length (buffer cb)) eqn:E.
  - rewrite Nat.min_id. apply firstn_all.
  - apply Nat.ltb_ge in E. rewrite Nat.min_r by lia. apply firstn_all.
Qed.

Lemma Write_open_pending q cb ch :
  closed cb = false → pending cb = true →
  Write q cb ch =
    ((length q, None),
     mkChanBuf (ident cb) (buffer cb ++ q) false true (p cb) (p_cap cb), ch).
Proof.
  intros Hc Hp. unfold Write. rewrite Hc. simpl. rewrite Hp.
  rewrite andb_false_r. reflexivity.
Qed.

Lemma Write_open_idle q cb ch :
  closed cb = false → pending cb = false → q ≠ [] →
  Write q cb ch =
    ((length q, None),
     mkChanBuf (ident cb) (buffer cb ++ q) false true (p cb) (p_cap cb),
     ch ++ [ident cb]).
Proof.
  intros Hc Hp Hq. unfold Write. rewrite Hc. simpl. rewrite Hp.
  destruct q; [done|]. reflexivity.
Qed.

Lemma Write_open_empty cb ch :
  closed cb = false →
  Write [] cb ch =
    ((0, None),
     mkChanBuf (ident cb) (buffer cb) false (pending cb) (p cb) (p_cap cb), ch).
Proof.
  intros Hc. unfold Write. rewrite Hc. simpl. rewrite app_nil_r.
  reflexivity.
Qed.

(** Once pending, further writes only append. *)
Lemma writes_pending qs : ∀ cb ch,
  closed cb = false → pending cb = true →
  writes qs cb ch =
    (mkChanBuf (ident cb) (buffer cb ++ concat qs) false true (p cb) (p_cap cb),
     ch).
Proof.
  induction qs as [|q qs IH]; intros cb ch Hc Hp; simpl.
  - rewrite app_nil_r. destruct cb; simpl in *; subst; reflexivity.
  - rewrite Write_open_pending by done.
    rewrite IH by done. simpl. by rewrite app_assoc.
Qed.

(** From idle, a run containing a non-empty write notifies exactly once. *)
Lemma writes_idle qs : ∀ cb ch,
  closed cb = false → pending cb = false →
  Exists (λ q, q ≠ []) qs →
  writes qs cb ch =
    (mkChanBuf (ident cb) (buffer cb ++ concat qs) false true (p cb) (p_cap cb),
     ch ++ [ident cb]).
Proof.
  induction qs as [|q qs IH]; intros cb ch Hc Hp Hex.
  - inversion Hex.
  - simpl. destruct q as [|b q].
    + rewrite Write_open_empty by done.
      rewrite IH; simpl; try done.
      inversion Hex; subst; done.
    + rewrite Write_open_idle by done.
      rewrite writes_pending by done. simpl.
      by rewrite <- app_assoc.
Qed.


(** C6.  An open, idle buffer that receives any run of writes, at least
    one of them non-empty, sends exactly one notification about itself
    before the next drain.  The drain hands out everything written, leaves
    the buffer empty and not pending, and the next non-empty write sends
    exactly one more notification. *)
Theorem coalesced_notification (cb : chanBuf) (ch : readyChan)
    (qs : list bytes) (q : bytes) :
  closed cb = false → pending cb = false →
  Exists (λ q, q ≠ []) qs → q ≠ [] →
  let cb1 := (writes qs cb ch).1 in
  let ch1 := (writes qs cb ch).2 in
  let out := (drain cb1).1 in
  let cb2 := (drain cb1).2 in
  ch1 = ch ++ [ident cb] ∧
  out = buffer cb ++ concat qs ∧
  Len cb2 = 0 ∧ pending cb2 = false ∧
  (Write q cb2 ch1).1.1 = (length q, None) ∧
  (Write q cb2 ch1).2 = ch1 ++ [ident cb].
Proof.
  intros Hc Hp Hex Hq. cbv zeta.
  rewrite drain_returns_buffer, (writes_idle qs cb ch Hc Hp Hex). simpl.
  repeat split.
  - destruct q; [done|]. reflexivity.
  - destruct q; [done|]. reflexivity.
Qed.

Lemma coalesced_notification_witness :
  let cb := mkChanBuf 7 [] false false [] 0 in
  let qs := [[]; [Byte.x61]; [Byte.x62; Byte.x63]] in
  (writes qs cb []).2 = [7] ∧
  (drain (writes qs cb []).1).1 = [Byte.x61; Byte.x62; Byte.x63] ∧
  (Write [Byte.x64] (drain (writes qs cb []).1).2 (writes qs cb []).2).2
    = [7; 7].
Proof.
  pose proof (coalesced_notification (mkChanBuf 7 [] false false [] 0) []
                [[]; [Byte.x61]; [Byte.x62; Byte.x63]] [Byte.x64]
                eq_refl eq_refl
                ltac:(right; left; discriminate) ltac:(discriminate))
    as (H1 & H2 & _ & _ & _ & H3).
  cbv zeta. split; [exact H1|]. split; [exact H2|exact H3].
Defined.

End ChanBufFacts.

(* ===================================================================== *)
(** ** Properties of the server handle and of protocol detection *)
(* ===================================================================== *)

Module ServeFacts.
Import Serve.

Section WithEnv.
Context `{Env}.

(** C8 (amended).  While [theServer] is nil, [StartOn] and [Stop] return
    [errNoServer] and [Addr], which has no error result, returns a nil
    address; none of them touches the world.  Once [theServer] is set,
    each of the three returns what the concrete server's method returns. *)
Theorem indirect_handle (srv : option ConfiguredServer) (laddr : string)
    (σ : World) :
  match srv with
  | None =>
    is_Addr srv σ = (None, σ) ∧
    is_StartOn srv laddr σ = (Some errNoServer, σ) ∧
    is_Stop srv σ = (Some errNoServer, σ)
  | Some s =>
    is_Addr srv σ = srv_Addr s σ ∧
    is_StartOn srv laddr σ =
      (ErrServer <$> (srv_StartOn s laddr σ).1, (srv_StartOn s laddr σ).2) ∧
    is_Stop srv σ = (ErrServer <$> (srv_Stop s σ).1, (srv_Stop s σ).2)
  end.
Proof.
  destruct srv as [s|]; simpl; [|done].
  split; [done|].
  split; [by destruct (srv_StartOn s laddr σ)|by destruct (srv_Stop s σ)].
Qed.

Lemma Peek_one_fresh (stream : bytes) :
  Peek 1 (NewReader stream) =
    (take 1 stream, mkReader (take 1 stream) (drop 1 stream)).
Proof.
  unfold Peek, NewReader; simpl. f_equal.
  destruct stream as [|b [|b' stream]]; reflexivity.
Qed.

Lemma Peek_zero (r : Reader) : Peek 0 r = ([], r).
Proof.
  unfold Peek; simpl. rewrite take_0, drop_0, app_nil_r.
  by destruct r.
Qed.

(** C9.  On the server built by [NewServer], the RESP test is shown
    exactly the first byte of the connection (nothing, if the connection
    is empty) and no more than that byte is pulled from the connection.  If
    the test accepts, the connection goes to the RESP handler, otherwise to
    the default HTTP handler, which is shown no byte; in both cases the
    handler's reader yields the whole stream in its order. *)
Theorem detection_routes_and_keeps_bytes (stream : bytes) :
  let '(h, r, shown) := dispatch NewServer (NewReader stream) [] in
  h = Some (if IsFirstByteRespTag (take 1 stream)
            then RedisConnection else DefaultHTTP) ∧
  shown = (if IsFirstByteRespTag (take 1 stream)
           then [take 1 stream] else [take 1 stream; []]) ∧
  buffered r = take 1 stream ∧
  readable r = stream.
Proof.
  unfold NewServer, dispatch, respDetector, DefaultHTTPHandler.
  cbn [Needed Test Handler].
  rewrite Peek_one_fresh.
  destruct (IsFirstByteRespTag (take 1 stream)).
  - repeat split. unfold readable; simpl. apply take_drop.
  - rewrite Peek_zero. repeat split. unfold readable; simpl. apply take_drop.
Qed.

End WithEnv.

(** C8, as first stated, fails: with no server set, [Addr] gives back a
    nil address and no "no server configured" error. *)
Lemma unset_Addr_gives_no_error :
  ¬ (∀ (E : Env) (o : operation) (σ : World),
       (run o None σ).1 = GotError (Some errNoServer)).
Proof.
  intros Hall.
  specialize (Hall Demo.server OpAddr []). simpl in Hall. discriminate.
Qed.

End ServeFacts.

(* ===================================================================== *)
(** ** Properties of the fan-out and of the multiplexer *)
(* ===================================================================== *)

Module MarshaledFacts.
Import Marshaled.

(** *** Flags, survivors and the compaction loop *)

Section Compaction.
Context {A : Type}.
Implicit Types (l rest okay : list A) (flags : list bool) (F : gset nat).

Lemma flagged_ge flags : ∀ i k, k ∈ flagged i flags → i ≤ k.
Proof.
  induction flags as [|[] flags IH]; intros i k Hk; simpl in Hk.
  - by apply elem_of_nil in Hk.
  - apply elem_of_cons in Hk as [->|Hk]; [lia|]. apply IH in Hk. lia.
  - apply IH in Hk. lia.
Qed.

Lemma flagged_lookup flags : ∀ i j,
  i + j ∈ flagged i flags ↔ flags !! j = Some true.
Proof.
  induction flags as [|b flags IH]; intros i j; simpl.
  - split; [intros Hk; by apply elem_of_nil in Hk|done].
  - destruct j as [|j]; simpl.
    + rewrite Nat.add_0_r. destruct b.
      * split; [done|intros _; apply elem_of_cons; by left].
      * split; [|done]. intros Hk. apply flagged_ge in Hk. lia.
    + replace (i + S j) with (S i + j) by lia. rewrite <- IH.
      destruct b; [|done].
      rewrite elem_of_cons. split; [intros [?|?]; [lia|done]|by right].
Qed.

Lemma flagged_NoDup flags : ∀ i, NoDup (flagged i flags).
Proof.
  induction flags as [|[] flags IH]; intros i; simpl.
  - constructor.
  - constructor; [|apply IH]. intros Hk. apply flagged_ge in Hk. lia.
  - apply IH.
Qed.


Lemma survivors_length flags : ∀ l i,
  length flags = length l →
  length (survivors flags l) + length (flagged i flags) = length l.
Proof.
  induction flags as [|[] flags IH]; intros [|x l] i Hlen;
    simpl in *; try done.
  - injection Hlen as Hlen. rewrite <- (IH l (S i) Hlen). lia.
  - injection Hlen as Hlen. rewrite <- (IH l (S i) Hlen). lia.
Qed.

Lemma survivors_sublist flags : ∀ l, survivors flags l `sublist_of` l.
Proof.
  induction flags as [|[] flags IH]; intros [|x l]; simpl;
    try apply sublist_nil_l.
  - by apply sublist_cons.
  - by apply sublist_skip.
Qed.

Lemma survivors_none_flagged flags : ∀ l i,
  length flags = length l → flagged i flags = [] → survivors flags l = l.
Proof.
  induction flags as [|[] flags IH]; intros [|x l] i Hlen Hnone;
    simpl in *; try done.
  injection Hlen as Hlen. f_equal. by apply (IH l (S i)).
Qed.

Lemma survivors_all_set l : survivors (replicate (length l) true) l = [].
Proof. induction l; simpl; done. Qed.

Lemma survivors_nil flags : ∀ l,
  length flags = length l →
  survivors flags l = [] → flags = replicate (length l) true.
Proof.
  induction flags as [|[] flags IH]; intros [|x l] Hlen Hs;
    simpl in *; try done.
  injection Hlen as Hlen. f_equal. by apply IH.
Qed.

(** The loop, entered at position [i] with the failures from [i] on still
    in [failed], appends to [okay] the survivors among [rest]. *)
Lemma compact_survivors rest : ∀ flags pre i f0 ftl okay,
  length pre = i → length flags = length rest →
  flagged i flags = f0 :: ftl →
  compact (pre ++ rest) i rest f0 ftl okay = okay ++ survivors flags rest.
Proof.
  induction rest as [|x rest IH]; intros flags pre i f0 ftl okay Hi Hlen Hfl.
  - destruct flags; simpl in *; done.
  - destruct flags as [|b flags]; [done|]. injection Hlen as Hlen.
    assert (Hpre : pre ++ x :: rest = (pre ++ [x]) ++ rest)
      by (by rewrite <- app_assoc).
    assert (Hi' : length (pre ++ [x]) = S i)
      by (rewrite length_app; simpl; lia).
    destruct b; simpl in Hfl.
    + injection Hfl as <- Hftl. cbn [compact survivors].
      rewrite Nat.eqb_refl, Nat.leb_refl. cbn [negb].
      destruct ftl as [|f1 ftl].
      * rewrite (survivors_none_flagged flags rest (S i) Hlen Hftl).
        rewrite length_app; simpl.
        destruct rest as [|y rest].
        -- simpl. rewrite Nat.add_1_r, Hi, Nat.ltb_irrefl.
           by rewrite app_nil_r.
        -- replace (S i <? length pre + S (length (y :: rest))) with true
             by (symmetry; apply Nat.ltb_lt; simpl; lia).
           rewrite Hpre, drop_app_length'; done.
      * rewrite Hpre. by apply IH.
    + assert (Hf0 : S i ≤ f0).
      { apply (flagged_ge flags). rewrite Hfl. apply elem_of_cons; by left. }
      cbn [compact survivors].
      replace (i =? f0) with false by (symmetry; apply Nat.eqb_neq; lia).
      replace (f0 <=? i) with false by (symmetry; apply Nat.leb_gt; lia).
      cbn [negb]. rewrite Hpre, (IH flags (pre ++ [x]) (S i)); try done.
      by rewrite <- app_assoc.
Qed.

(** Taking out the positions of [F] is keeping the survivors, when [F]
    is the set of flagged positions. *)
Lemma remove_from_survivors F flags : ∀ l i,
  length flags = length l →
  (∀ j, i + j ∈ F ↔ flags !! j = Some true) →
  remove_from F i l = survivors flags l.
Proof.
  induction flags as [|b flags IH]; intros [|x l] i Hlen HF;
    simpl in *; try done.
  injection Hlen as Hlen.
  assert (HF' : ∀ j, S i + j ∈ F ↔ flags !! j = Some true).
  { intros j. rewrite <- (HF (S j)). by replace (i + S j) with (S i + j) by lia. }
  pose proof (HF 0) as H0. rewrite Nat.add_0_r in H0. simpl in H0.
  destruct b.
  - rewrite decide_True by (by apply H0). by apply IH.
  - rewrite decide_False by (intros Hin; apply H0 in Hin; done).
    f_equal. by apply IH.
Qed.

Lemma flagged_set_size F flags :
  (∀ j, j ∈ F ↔ flags !! j = Some true) →
  size F = length (flagged 0 flags).
Proof.
  intros HF.
  assert (HFeq : F = list_to_set (flagged 0 flags)).
  { apply set_eq. intros j. rewrite elem_of_list_to_set, HF.
    by rewrite <- (flagged_lookup flags 0 j). }
  rewrite HFeq. apply size_list_to_set, flagged_NoDup.
Qed.

End Compaction.

(** *** The fan-out: [writeToAll] and [HandleItem] *)

Section Fanout.
Context `{Env}.
Implicit Types (d : defaultFrameWatcher) (σ : World) (buf item : bytes).

Lemma write_failures_length buf ws : ∀ σ,
  length (write_failures buf ws σ) = length ws.
Proof.
  induction ws as [|w ws IH]; intros σ; simpl; [done|].
  destruct (io_Write w buf σ) as [[e|] σ']; simpl; by rewrite IH.
Qed.

Lemma write_range_flagged buf ws : ∀ i failed σ,
  (write_range buf i ws failed σ).1 =
    failed ++ flagged i (write_failures buf ws σ).
Proof.
  induction ws as [|w ws IH]; intros i failed σ; simpl.
  - by rewrite app_nil_r.
  - destruct (io_Write w buf σ) as [[e|] σ']; simpl; rewrite IH;
      [by rewrite <- app_assoc|done].
Qed.

(** After [writeToAll] the writers are the survivors of the pass. *)
Lemma writeToAll_writers buf d σ :
  writers (writeToAll buf d σ).1.2 =
    survivors (write_failures buf (writers d) σ) (writers d).
Proof.
  unfold writeToAll.
  pose proof (write_range_flagged buf (writers d) 0 [] σ) as Hfl.
  pose proof (write_failures_length buf (writers d) σ) as Hlen.
  destruct (write_range buf 0 (writers d) [] σ) as [failed σ'].
  simpl in Hfl. subst failed.
  destruct (flagged 0 (write_failures buf (writers d) σ))
    as [|f0 ftl] eqn:Hfl; simpl.
  - symmetry. by apply (survivors_none_flagged _ _ 0).
  - pose proof (compact_survivors (writers d) _ [] 0 f0 ftl [] eq_refl
                  Hlen Hfl) as Hc. simpl in Hc.
    by destruct (length _ =? 0).
Qed.

(** [writeToAll] on a fan-out with writers reports "done" exactly when it
    leaves none, and reports nothing else. *)
Lemma writeToAll_error buf d σ :
  writers d ≠ [] →
  (writeToAll buf d σ).1.1 =
    if length (writers (writeToAll buf d σ).1.2) =? 0
    then Some errDefaultFrameWatcherDone else None.
Proof.
  intros Hne. unfold writeToAll.
  destruct (write_range buf 0 (writers d) [] σ) as [[|f0 ftl] σ']; simpl.
  - by destruct (writers d).
  - destruct (length (compact _ _ _ _ _ _) =? 0) eqn:E; simpl; by rewrite E.
Qed.

Lemma HandleItem_no_writers item d σ :
  writers d = [] →
  HandleItem item d σ = (Some errDefaultFrameWatcherDone, d, σ).
Proof. intros Hw. unfold HandleItem. by rewrite Hw. Qed.

Lemma HandleItem_framed item buf d σ :
  writers d ≠ [] → FrameItem (dfw_format d) item = inr buf →
  HandleItem item d σ = writeToAll buf d σ.
Proof.
  intros Hw Hfr. unfold HandleItem. rewrite Hfr.
  by destruct (writers d).
Qed.

Lemma HandleItem_frame_error item e d σ :
  writers d ≠ [] → FrameItem (dfw_format d) item = inl e →
  HandleItem item d σ = (Some (ErrExternal e), d, σ).
Proof.
  intros Hw Hfr. unfold HandleItem. rewrite Hfr.
  by destruct (writers d).
Qed.

Lemma length_zero_nil {B} (l : list B) :
  (length l =? 0) = true ↔ l = [].
Proof. destruct l; simpl; split; done. Qed.

(** C3.  Let [F] be the set of positions whose write fails during one
    [writeToAll] pass over the sink list [S].  After the pass the sink
    list is [S] with exactly the positions of [F] taken out and the others
    in their order: it is a sublist of [S] of length [|S| - |F|].  The same
    holds for a [HandleItem] call that frames its item to the buffer
    written. *)
Theorem compaction_correct buf d σ (F : gset nat) :
  (∀ i, i ∈ F ↔ write_failures buf (writers d) σ !! i = Some true) →
  let S := writers d in
  let S' := writers (writeToAll buf d σ).1.2 in
  S' = remove_indices F S ∧
  S' `sublist_of` S ∧
  length S' = length S - size F ∧
  ∀ item, FrameItem (dfw_format d) item = inr buf →
          writers (HandleItem item d σ).1.2 = remove_indices F S.
Proof.
  intros HF. cbv zeta.
  pose proof (write_failures_length buf (writers d) σ) as Hlen.
  assert (Hrm : remove_indices F (writers d) =
                survivors (write_failures buf (writers d) σ) (writers d)).
  { apply remove_from_survivors; [done|]. intros j. apply HF. }
  rewrite writeToAll_writers, Hrm.
  split; [done|]. split; [apply survivors_sublist|]. split.
  - rewrite (flagged_set_size F _ HF).
    pose proof (survivors_length _ (writers d) 0 Hlen). lia.
  - intros item Hfr. destruct (writers d) as [|w ws] eqn:Hw.
    + rewrite HandleItem_no_writers by done. simpl. rewrite Hw.
      by destruct (write_failures buf [] σ).
    + rewrite (HandleItem_framed item buf) by (done || by rewrite Hw).
      rewrite writeToAll_writers. by rewrite Hw.
Qed.

(** C7 (amended).  [HandleItem] returns the "all writers done" error
    exactly when no sink remains after the call, which is when none was
    registered or when the item was framed and every write failed.  When
    the item is framed and a sink remains it returns nil.  When framing
    fails on a fan-out with sinks it returns the framing error, writes
    nothing and keeps every sink.  The error of a sink's write is never
    returned. *)
Theorem HandleItem_result item d σ :
  let err := (HandleItem item d σ).1.1 in
  let d' := (HandleItem item d σ).1.2 in
  (err = Some errDefaultFrameWatcherDone ↔ writers d' = []) ∧
  (writers d' = [] ↔
     writers d = [] ∨
     ∃ buf, FrameItem (dfw_format d) item = inr buf ∧
            write_failures buf (writers d) σ
              = replicate (length (writers d)) true) ∧
  match FrameItem (dfw_format d) item with
  | inr _ => err = (if length (writers d') =? 0
                    then Some errDefaultFrameWatcherDone else None)
  | inl e => writers d = [] ∨
             HandleItem item d σ = (Some (ErrExternal e), d, σ)
  end.
Proof.
  cbv zeta. destruct (writers d) as [|w ws] eqn:Hw.
  { rewrite HandleItem_no_writers by done. simpl. rewrite Hw.
    split; [done|]. split; [split; [by left|done]|].
    destruct (FrameItem _ item); [by left|done]. }
  assert (Hne : writers d ≠ []) by (by rewrite Hw).
  destruct (FrameItem (dfw_format d) item) as [e|buf] eqn:Hfr.
  - rewrite (HandleItem_frame_error item e) by done. simpl. rewrite Hw.
    split; [done|]. split; [|by right].
    split; [done|]. intros [?|(buf & ? & _)]; done.
  - rewrite (HandleItem_framed item buf) by done.
    rewrite (writeToAll_error buf d σ Hne).
    pose proof (writeToAll_writers buf d σ) as Hs.
    pose proof (write_failures_length buf (writers d) σ) as Hlen.
    rewrite Hw in Hs, Hlen.
    split; [|split; [|done]].
    + destruct (writers (writeToAll buf d σ).1.2); simpl; done.
    + split.
      * intros Hnil. right. exists buf. split; [done|].
        rewrite Hnil in Hs. symmetry in Hs.
        by apply survivors_nil in Hs.
      * intros [?|(buf' & Hbuf & Hall)]; [done|].
        injection Hbuf as <-. rewrite Hs, Hall. apply survivors_all_set.
Qed.

End Fanout.

(** C7, as first stated, fails: a fan-out over [Demo.frameFails] with one
    healthy sink keeps that sink when the empty item cannot be framed, and
    yet [HandleItem] returns an error. *)
Lemma surviving_sink_yet_error :
  ¬ (∀ (E : Env) (item : bytes) (d : defaultFrameWatcher) (σ : World),
       writers (HandleItem item d σ).1.2 ≠ [] →
       (HandleItem item d σ).1.1 = None).
Proof.
  intros Hall.
  specialize (Hall Demo.env [] (Demo.fanout Demo.frameFails [0]) []).
  simpl in Hall. specialize (Hall ltac:(discriminate)). discriminate.
Qed.

Lemma compaction_correct_witness :
  let d := Demo.fanout Demo.lineFormat [0; 1; 2; 3; 4] in
  let d' := (writeToAll [Byte.x31] d []).1.2 in
  writers d' = remove_indices ({[1; 3]} : gset nat) (writers d) ∧
  length (writers d') = 5 - size ({[1; 3]} : gset nat).
Proof.
  assert (Hfail : ∀ i, i ∈ ({[1; 3]} : gset nat) ↔
            write_failures [Byte.x31]
              (writers (Demo.fanout Demo.lineFormat [0; 1; 2; 3; 4])) []
              !! i = Some true).
  { intros i. simpl. set_unfold.
    destruct i as [|[|[|[|[|i]]]]]; simpl; split; intros Hi;
      try done; try lia; auto. }
  pose proof (compaction_correct [Byte.x31]
                (Demo.fanout Demo.lineFormat [0; 1; 2; 3; 4]) []
                {[1; 3]} Hfail) as (H1 & _ & H2 & _).
  split; [exact H1|exact H2].
Defined.

(** *** The format channel: [marshaledWatcher] *)

Section Channel.
Context `{Env}.
Implicit Types (gw : marshaledWatcher) (d : defaultFrameWatcher) (σ : World).




(** C2 (amended).  On a live channel (its fan-out holds a sink and is
    registered for items): when the item cannot be marshaled, [emit]
    returns false and changes nothing, neither the channel nor any sink;
    when the item is marshaled and framed, [emit] returns whether a sink
    remains after the item was handled. *)
Theorem emit_on_live_channel data gw σ :
  live gw →
  match MarshalItem (format gw) data with
  | inl _ => mw_emit data gw σ = (false, gw, σ)
  | inr item =>
    ∀ buf, FrameItem (dfw_format (dfw gw)) item = inr buf →
      (mw_emit data gw σ).1.1 =
        negb (length (writers (dfw (mw_emit data gw σ).1.2)) =? 0)
  end.
Proof.
  intros [Hws Hw]. unfold mw_emit. rewrite Hws. simpl.
  destruct (MarshalItem (format gw) data) as [e|item]; [done|].
  intros buf Hfr.
  rewrite (HandleItem_framed item buf) by done.
  pose proof (writeToAll_error buf (dfw gw) σ Hw) as Herr.
  destruct (writeToAll buf (dfw gw) σ) as [[err d'] σ']. simpl in Herr.
  subst err. destruct (length (writers d') =? 0) eqn:Hlen; simpl;
    by rewrite Hlen.
Qed.

(** [marshaledWatcher.init] fails only with an error of the format or of
    the writer. *)
Lemma mw_init_error w gw σ :
  (mw_init w gw σ).1.1 = None ∨
  ∃ e, (mw_init w gw σ).1.1 = Some (ErrExternal e).
Proof.
  unfold mw_init, dfw_init.
  destruct (source_GetInit σ) as [[data|] σ0]; simpl.
  - destruct (MarshalInit _ data) as [e|buf]; simpl; [right; by exists e|].
    destruct (FrameItem _ buf) as [e|buf']; simpl; [right; by exists e|].
    destruct (io_Write w buf' σ0) as [[e|] σ']; simpl; [right; by exists e|].
    left. by destruct (length _ =? 1).
  - left. by destruct (length _ =? 1).
Qed.

(** A new channel is consistent, an attach keeps it so, and so does an
    item unless its framing fails. *)
Lemma newMarshaledWatcher_consistent fmt :
  consistent (newMarshaledWatcher fmt).
Proof. by left. Qed.

Lemma mw_init_consistent w gw σ :
  consistent gw → consistent (mw_init w gw σ).1.2.
Proof.
  intros Hc. unfold mw_init, dfw_init.
  destruct (source_GetInit σ) as [data σ0].
  assert (Hreg :
    consistent
      (if length (writers (dfw gw) ++ [w]) =? 1
       then mkWatcher (format gw)
              (mkDfw (dfw_format (dfw gw)) (writers (dfw gw) ++ [w]))
              (watchers gw ++ [OwnDfw])
       else mkWatcher (format gw)
              (mkDfw (dfw_format (dfw gw)) (writers (dfw gw) ++ [w]))
              (watchers gw))).
  { destruct Hc as [[Hws Hw]|[Hws Hw]].
    - rewrite Hw, Hws. simpl. right. by split.
    - destruct (writers (dfw gw)) as [|w0 ws] eqn:Hw0; [done|].
      rewrite length_app. simpl.
      replace (length ws + 1) with (S (length ws)) by lia.
      simpl. right. by split. }
  assert (Hsame : consistent (mkWatcher (format gw) (dfw gw) (watchers gw)))
    by (by destruct gw).
  destruct data as [data|]; simpl;
    [|by destruct (length (writers (dfw gw) ++ [w]) =? 1)].
  destruct (MarshalInit _ data) as [e|buf]; simpl; [done|].
  destruct (FrameItem _ buf) as [e|buf']; simpl; [done|].
  destruct (io_Write w buf' σ0) as [[e|] σ']; simpl; [done|].
  by destruct (length (writers (dfw gw) ++ [w]) =? 1).
Qed.

Lemma mw_emit_consistent data gw σ :
  consistent gw →
  (∀ item, MarshalItem (format gw) data = inr item →
           ∃ buf, FrameItem (dfw_format (dfw gw)) item = inr buf) →
  consistent (mw_emit data gw σ).1.2.
Proof.
  intros Hc Hframed. unfold mw_emit.
  destruct Hc as [[Hws Hw]|[Hws Hw]].
  { rewrite Hws. simpl. left. by split. }
  rewrite Hws. cbn [length Nat.eqb].
  destruct (MarshalItem (format gw) data) as [e|item]; simpl.
  { right. by split. }
  destruct (Hframed item eq_refl) as [buf Hfr].
  rewrite (HandleItem_framed item buf) by done.
  pose proof (writeToAll_error buf (dfw gw) σ Hw) as Herr.
  destruct (writeToAll buf (dfw gw) σ) as [[err d'] σ']. simpl in Herr.
  subst err. destruct (length (writers d') =? 0) eqn:Hlen; simpl.
  - left. split; [done|]. by apply length_zero_nil.
  - right. split; [done|]. simpl. intros Hnil. by rewrite Hnil in Hlen.
Qed.

End Channel.

Lemma emit_on_live_channel_witness :
  let gw := (@mw_init Demo.env 0 (Demo.channel Demo.marshalFails) []).1.2 in
  @mw_emit Demo.env 0 gw [] = (false, gw, []) ∧
  (@mw_emit Demo.env 2 gw []).1.1 = true.
Proof.
  assert (Hlive : live (@mw_init Demo.env 0 (Demo.channel Demo.marshalFails) []).1.2).
  { split; [reflexivity|]. simpl. discriminate. }
  split.
  - exact (@emit_on_live_channel Demo.env 0 _ [] Hlive).
  - exact (@emit_on_live_channel Demo.env 2 _ [] Hlive _ eq_refl).
Defined.

(** C2, as first stated, fails: once a sink is attached to a channel over
    [Demo.marshalFails], an item that cannot be marshaled makes [emit]
    return false although the sink is still attached. *)
Lemma marshal_error_reports_no_sink :
  ¬ (∀ (E : Env) (data : Data) (gw : marshaledWatcher) (σ : World),
       writers (dfw gw) ≠ [] →
       (mw_emit data gw σ).1.1 =
         negb (length (writers (dfw (mw_emit data gw σ).1.2)) =? 0)).
Proof.
  intros Hall.
  specialize (Hall Demo.env 0
                (@mw_init Demo.env 0 (Demo.channel Demo.marshalFails) []).1.2 []).
  simpl in Hall. specialize (Hall ltac:(discriminate)). discriminate.
Qed.

(** C5, on the code: a sink is attached to a channel over
    [Demo.frameFails]; an item that cannot be framed drops the fan-out
    from the channel while its sink stays; a second sink is then attached
    with success.  The fan-out now holds two sinks and is not registered:
    the next item, which marshals and frames, reaches no sink and [emit]
    returns false. *)
Lemma attach_after_framing_error :
  let gw0 := Demo.channel Demo.frameFails in
  let '(e1, gw1, σ1) := @mw_init Demo.env 0 gw0 [] in
  let '(b2, gw2, σ2) := @mw_emit Demo.env 0 gw1 σ1 in
  let '(e3, gw3, σ3) := @mw_init Demo.env 2 gw2 σ2 in
  let '(b4, gw4, σ4) := @mw_emit Demo.env 1 gw3 σ3 in
  e1 = None ∧ watchers gw1 = [OwnDfw] ∧
  b2 = false ∧ watchers gw2 = [] ∧ writers (dfw gw2) = [0] ∧
  e3 = None ∧ watchers gw3 = [] ∧ writers (dfw gw3) = [0; 2] ∧
  b4 = false ∧ σ4 = [].
Proof. vm_compute. repeat split. Qed.

(** *** Format names *)

Lemma lower_ascii_not_upper c : is_upper (lower_ascii c) = false.
Proof. destruct c as [[] [] [] [] [] [] [] []]; reflexivity. Qed.

Lemma lower_ascii_idem c : lower_ascii (lower_ascii c) = lower_ascii c.
Proof.
  unfold lower_ascii at 1. by rewrite lower_ascii_not_upper.
Qed.

Lemma lower_bytes_idem s : lower_bytes (lower_bytes s) = lower_bytes s.
Proof.
  induction s as [|c s IH]; simpl; [done|].
  by rewrite lower_ascii_idem, IH.
Qed.

Lemma lower_bytes_has_no_upper s : has_upper (lower_bytes s) = false.
Proof.
  induction s as [|c s IH]; simpl; [done|].
  by rewrite lower_ascii_not_upper, IH.
Qed.

Lemma lower_ascii_is_ascii c : is_ascii (lower_ascii c) = is_ascii c.
Proof. destruct c as [[] [] [] [] [] [] [] []]; reflexivity. Qed.

Lemma lower_bytes_all_ascii s : all_ascii (lower_bytes s) = all_ascii s.
Proof.
  induction s as [|c s IH]; simpl; [done|].
  by rewrite lower_ascii_is_ascii, IH.
Qed.

Section Names.
Context `{Env}.

Example ToLower_JSON : ToLower "JSON" = "json"%string.
Proof. reflexivity. Qed.




(** Lower-casing changes every ASCII name that holds an upper-case
    letter. *)
Lemma ToLower_changes_ascii_upper k :
  all_ascii k = true → has_upper k = true → ToLower k ≠ k.
Proof.
  intros Ha Hu Hk. unfold ToLower in Hk. rewrite Ha in Hk.
  rewrite <- Hk in Hu. by rewrite lower_bytes_has_no_upper in Hu.
Qed.

End Names.

(** *** The multiplexer: [MarshaledDataSource] *)

Section Multiplexer.
Context `{Env}.
Implicit Types (mds : MarshaledDataSource) (σ : World) (w : Writer).
Implicit Types (ws : gmap string marshaledWatcher).

Lemma register_formats_names entries : ∀ names ws,
  (register_formats entries names ws).1 = names ++ entries.*1.
Proof.
  induction entries as [|[name fmt] entries IH]; intros names ws; simpl.
  - by rewrite app_nil_r.
  - rewrite IH. by rewrite <- app_assoc.
Qed.

Lemma register_formats_keeps entries : ∀ names ws k,
  is_Some (ws !! k) →
  is_Some ((register_formats entries names ws).2 !! k).
Proof.
  induction entries as [|[name fmt] entries IH]; intros names ws k Hk;
    simpl; [done|].
  apply IH. destruct (decide (name = k)) as [->|Hne].
  - rewrite lookup_insert_eq. by eexists.
  - by rewrite lookup_insert_ne.
Qed.

Lemma NewMarshaledDataSource_formats fmts :
  formats (NewMarshaledDataSource fmts) = fmts.
Proof.
  unfold NewMarshaledDataSource.
  destruct (fmts !! "json"%string), source_TextTemplate,
    (fmts !! "text"%string);
    by destruct (register_formats _ _ _).
Qed.

(** Without a "json" entry of the caller's, the constructor lists "json"
    among the format names and gives it a channel. *)
Lemma NewMarshaledDataSource_json fmts :
  fmts !! "json"%string = None →
  "json"%string ∈ Formats (NewMarshaledDataSource fmts) ∧
  is_Some (mds_watchers (NewMarshaledDataSource fmts) !! "json"%string).
Proof.
  intros Hjson. unfold Formats, NewMarshaledDataSource. rewrite Hjson.
  destruct source_TextTemplate as [tmpl|], (fmts !! "text"%string) as [f|].
  all: match goal with
       | |- context [register_formats ?es ?ns ?m] =>
         pose proof (register_formats_names es ns m) as Hn;
         pose proof (register_formats_keeps es ns m "json"%string) as Hk;
         destruct (register_formats es ns m) as [names3 ws3]
       end; simpl in *; subst names3.
  all: split;
    [ apply elem_of_cons; by left
    | apply Hk; rewrite ?(lookup_insert_ne _ "text"%string) by done;
      rewrite lookup_insert_eq; by eexists ].
Qed.

(** C1, on the code: for a source built without a "json" entry, "json" is
    among the names [Formats] reports and [Watch] accepts it, but [Get]
    refuses it with [ErrUnsupportedFormat], and does so before reading the
    source or writing anything. *)
Theorem Get_refuses_default_json fmts w σ :
  fmts !! "json"%string = None →
  let mds := NewMarshaledDataSource fmts in
  "json"%string ∈ Formats mds ∧
  (Watch "json" w mds σ).1.1 ≠ Some ErrUnsupportedFormat ∧
  Get "json" w mds σ = (Some ErrUnsupportedFormat, σ).
Proof.
  intros Hjson. cbv zeta.
  destruct (NewMarshaledDataSource_json fmts Hjson) as [Hin [gw Hgw]].
  split; [done|]. split.
  - unfold Watch. cbv zeta. change (ToLower "json") with "json"%string.
    rewrite Hgw.
    destruct (mw_init_error w gw σ) as [Hok|[e He]];
      destruct (mw_init w gw σ) as [[err gw'] σ']; simpl in *; subst err.
    + by destruct (negb _).
    + done.
  - unfold Get. change (ToLower "json") with "json"%string.
    by rewrite NewMarshaledDataSource_formats, Hjson.
Qed.




End Multiplexer.

Lemma Get_refuses_default_json_witness :
  @Get Demo.env "json" 0 (@NewMarshaledDataSource Demo.env ∅) []
    = (Some ErrUnsupportedFormat, []).
Proof.
  exact (proj2 (proj2 (@Get_refuses_default_json Demo.env ∅ 0 []
                         (lookup_empty _)))).
Defined.



End MarshaledFacts.

(* ===================================================================== *)
(** ** Histories of the coalescing buffer *)
(* ===================================================================== *)

Module ChanBufHistory.
Import ChanBuf.

(** What one [Write] does to each part of the state. *)
Lemma Write_effect q cb ch :
  let fresh := negb (closed cb) && (0 <? length q) in
  Write q cb ch =
    ((if closed cb then (0, Some errBufClosed) else (length q, None)),
     mkChanBuf (ident cb)
               (if closed cb then buffer cb else buffer cb ++ q)
               (closed cb) (pending cb || fresh) (p cb) (p_cap cb),
     if fresh && negb (pending cb) then ch ++ [ident cb] else ch).
Proof.
  unfold Write. destruct cb as [i b c pd sl cp]; simpl.
  destruct c; simpl; [by rewrite orb_false_r|].
  destruct (0 <? length q), pd; simpl; reflexivity.
Qed.

Lemma drain_effect cb :
  drain cb =
    (buffer cb,
     mkChanBuf (ident cb) [] (closed cb) false (buffer cb)
               (Nat.max (p_cap cb) (Len cb))).
Proof.
  unfold drain, Reset, Len; simpl.
  destruct (p_cap cb <? length (buffer cb)) eqn:E.
  - apply Nat.ltb_lt in E. rewrite Nat.min_id, firstn_all.
    by rewrite Nat.max_r by lia.
  - apply Nat.ltb_ge in E. rewrite Nat.min_r by lia. rewrite firstn_all.
    by rewrite Nat.max_l by lia.
Qed.


(** X2.  Notifications are not flooded: over any history the buffer sends
    only references to itself, and at most one per drain, plus one if it
    was idle at the start. *)
Theorem run_notifications_bounded calls : ∀ cb ch,
  ∃ k, (run calls cb ch).2 = ch ++ replicate k (ident cb) ∧
       k ≤ (if pending cb then 0 else 1) + drains calls.
Proof.
  induction calls as [|[q| |] calls IH]; intros cb ch;
    cbn [run accepted drains].
  - exists 0. simpl. split; [by rewrite app_nil_r|lia].
  - rewrite Write_effect. cbv zeta.
    match goal with
    | |- context [run calls ?cb1 ?ch1] =>
      destruct (IH cb1 ch1) as (k & -> & Hk)
    end. simpl in *.
    destruct (closed cb), (0 <? length q), (pending cb); simpl in *;
      try (exists k; split; [done|lia]).
    exists (S k). split; [by rewrite <- app_assoc|lia].
  - rewrite drain_effect.
    match goal with
    | |- context [run calls ?cb1 ?ch1] =>
      destruct (IH cb1 ch1) as (k & Hrun & Hk);
      destruct (run calls cb1 ch1) as [[outs cb''] ch']
    end. simpl in *. exists k. split; [done|].
    destruct (pending cb); lia.
  - destruct (IH (close cb) ch) as (k & Hrun & Hk).
    exists k. split; [done|]. simpl in Hk. done.
Qed.

(** X3.  Buffered data is always announced: if at the start the buffer is
    pending exactly when it holds bytes, then it is so after any history.
    In particular bytes never wait in an idle buffer. *)
Theorem run_keeps_pending_iff_data calls : ∀ cb ch,
  (pending cb = true ↔ buffer cb ≠ []) →
  pending (run calls cb ch).1.2 = true ↔ buffer (run calls cb ch).1.2 ≠ [].
Proof.
  induction calls as [|[q| |] calls IH]; intros cb ch Hinv;
    cbn [run accepted drains].
  - done.
  - rewrite Write_effect. cbv zeta. apply IH. simpl.
    destruct (closed cb); simpl; [by rewrite orb_false_r|].
    destruct q as [|b q]; simpl.
    + by rewrite orb_false_r, app_nil_r.
    + rewrite orb_true_r. split; [|done].
      intros _ Hnil. by apply app_eq_nil in Hnil as [_ ?].
  - rewrite drain_effect.
    match goal with
    | |- context [run calls ?cb1 ?ch1] =>
      specialize (IH cb1 ch1); destruct (run calls cb1 ch1) as [[outs cb''] ch']
    end. simpl in *. apply IH. split; done.
  - by apply (IH (close cb) ch).
Qed.

Lemma run_keeps_pending_iff_data_witness :
  let r := run [DoWrite [Byte.x61]; DoWrite []; DoDrain; DoWrite []; DoClose;
                DoWrite [Byte.x62]]
               (mkChanBuf 7 [] false false [] 0) [] in
  pending r.1.2 = true ↔ buffer r.1.2 ≠ [].
Proof.
  apply (run_keeps_pending_iff_data
           [DoWrite [Byte.x61]; DoWrite []; DoDrain; DoWrite []; DoClose;
            DoWrite [Byte.x62]]
           (mkChanBuf 7 [] false false [] 0) []).
  simpl. split; [discriminate|done].
Defined.

(** X4.  [drain] hands out the whole buffered content and leaves the
    buffer empty; the scratch slice keeps its capacity when that is enough
    and otherwise grows to the length needed, so the capacity never
    shrinks; a drain right after a drain hands out nothing and keeps the
    capacity. *)
Theorem drain_reuses_capacity cb :
  let out := (drain cb).1 in
  let cb' := (drain cb).2 in
  out = buffer cb ∧ p cb' = out ∧ buffer cb' = [] ∧
  p_cap cb' = (if p_cap cb <? Len cb then Len cb else p_cap cb) ∧
  p_cap cb ≤ p_cap cb' ∧ length out ≤ p_cap cb' ∧
  (drain cb').1 = [] ∧ p_cap (drain cb').2 = p_cap cb'.
Proof.
  cbv zeta. rewrite !drain_effect. simpl. unfold Len. simpl.
  repeat split; try lia.
  destruct (p_cap cb <? length (buffer cb)) eqn:E.
  - apply Nat.ltb_lt in E. lia.
  - apply Nat.ltb_ge in E. lia.
Qed.

(** X5.  [writeTo] gives the writer everything buffered, in one call, and
    leaves the buffer empty and idle whatever the writer answers: after a
    failed write the bytes are not kept. *)
Theorem writeTo_empties_buffer {W E : Type}
    (w_Write : bytes → W → (nat * option E) * W) cb ω :
  let r := writeTo w_Write cb ω in
  (r.1.1, r.2) = w_Write (buffer cb) ω ∧
  buffer r.1.2 = [] ∧ pending r.1.2 = false ∧
  closed r.1.2 = closed cb ∧
  (writeTo w_Write r.1.2 r.2).1.1 = (w_Write [] r.2).1.
Proof.
  cbv zeta. unfold writeTo. rewrite drain_effect.
  destruct (w_Write (buffer cb) ω) as [r ω'] eqn:Hw. cbn [fst snd].
  rewrite drain_effect. cbn [fst snd buffer pending closed].
  by destruct (w_Write [] ω').
Qed.

End ChanBufHistory.

(* ===================================================================== *)
(** ** More on the fan-out and the format channel *)
(* ===================================================================== *)

Module FanoutFacts.
Import Marshaled MarshaledFacts.

Section WithEnv.
Context `{Env}.
Implicit Types (gw : marshaledWatcher) (d : defaultFrameWatcher) (σ : World).
Implicit Types (buf item : bytes) (w : Writer).

(** X6.  [defaultFrameWatcher.init] registers the sink exactly when it
    returns nil, and then at the end of the list; on an error the fan-out
    is as before.  With nil initial data it registers without writing.  The
    format is never changed. *)
Theorem dfw_init_registers_iff_ok data w d σ :
  let err := (dfw_init data w d σ).1.1 in
  let d' := (dfw_init data w d σ).1.2 in
  match err with
  | None => writers d' = writers d ++ [w]
  | Some _ => d' = d
  end ∧
  dfw_format d' = dfw_format d ∧
  dfw_init None w d σ = (None, mkDfw (dfw_format d) (writers d ++ [w]), σ).
Proof.
  cbv zeta. unfold dfw_init.
  destruct data as [data|]; [|done].
  destruct (MarshalInit _ data) as [e|buf]; [done|].
  destruct (FrameItem _ buf) as [e|buf']; [done|].
  destruct (io_Write w buf' σ) as [[e|] σ']; done.
Qed.

Lemma write_range_world buf ws : ∀ i failed σ,
  (write_range buf i ws failed σ).2 = write_each buf ws σ.
Proof.
  induction ws as [|w ws IH]; intros i failed σ; simpl; [done|].
  destruct (io_Write w buf σ) as [[e|] σ']; simpl; apply IH.
Qed.

(** X7.  A failing sink does not hold up the others: [writeToAll] writes
    the buffer to every registered writer, once each and in list order,
    whatever the earlier writes answered. *)
Theorem writeToAll_writes_each buf d σ :
  (writeToAll buf d σ).2 = write_each buf (writers d) σ.
Proof.
  unfold writeToAll.
  pose proof (write_range_world buf (writers d) 0 [] σ) as Hw.
  destruct (write_range buf 0 (writers d) [] σ) as [[|f0 ftl] σ'];
    simpl in *; [done|].
  by destruct (length _ =? 0).
Qed.

Lemma writeToAll_format buf d σ :
  dfw_format (writeToAll buf d σ).1.2 = dfw_format d.
Proof.
  unfold writeToAll.
  destruct (write_range buf 0 (writers d) [] σ) as [[|f0 ftl] σ'];
    simpl; [done|].
  by destruct (length _ =? 0).
Qed.

Lemma writeToAll_sublist buf d σ :
  writers (writeToAll buf d σ).1.2 `sublist_of` writers d.
Proof. rewrite writeToAll_writers. apply survivors_sublist. Qed.

Lemma HandleItem_shrinks item d σ :
  writers (HandleItem item d σ).1.2 `sublist_of` writers d ∧
  dfw_format (HandleItem item d σ).1.2 = dfw_format d.
Proof.
  unfold HandleItem. destruct (length (writers d) =? 0); [done|].
  destruct (FrameItem _ item) as [e|buf]; [done|].
  split; [apply writeToAll_sublist|apply writeToAll_format].
Qed.

Lemma HandleItems_range_shrinks items : ∀ d σ,
  writers (HandleItems_range items d σ).1.2 `sublist_of` writers d ∧
  dfw_format (HandleItems_range items d σ).1.2 = dfw_format d.
Proof.
  induction items as [|item items IH]; intros d σ; simpl; [done|].
  destruct (FrameItem _ item) as [e|buf]; [done|].
  pose proof (writeToAll_sublist buf d σ) as Hsub.
  pose proof (writeToAll_format buf d σ) as Hfmt.
  destruct (writeToAll buf d σ) as [[[e|] d'] σ']; simpl in *; [done|].
  destruct (IH d' σ') as [Hsub' Hfmt'].
  split; [by etrans|congruence].
Qed.

(** X8.  Sinks are only ever taken out by the handling of items:
    after [HandleItem] and after [HandleItems] the writers are a sublist of
    the writers before (none added, none reordered), and the format is the
    same. *)
Theorem handling_only_removes_sinks item items d σ :
  writers (HandleItem item d σ).1.2 `sublist_of` writers d ∧
  dfw_format (HandleItem item d σ).1.2 = dfw_format d ∧
  writers (HandleItems items d σ).1.2 `sublist_of` writers d ∧
  dfw_format (HandleItems items d σ).1.2 = dfw_format d.
Proof.
  destruct (HandleItem_shrinks item d σ) as [H1 H2].
  split; [done|]. split; [done|].
  unfold HandleItems. destruct (length (writers d) =? 0); [done|].
  apply HandleItems_range_shrinks.
Qed.

Lemma writeToAll_ok_keeps_a_sink buf d σ :
  writers d ≠ [] → (writeToAll buf d σ).1.1 = None →
  writers (writeToAll buf d σ).1.2 ≠ [].
Proof.
  intros Hne Hok Hnil. rewrite (writeToAll_error buf d σ Hne) in Hok.
  by rewrite Hnil in Hok.
Qed.

Lemma HandleItems_range_each items : ∀ d σ,
  writers d ≠ [] → HandleItems_range items d σ = handle_each items d σ.
Proof.
  induction items as [|item items IH]; intros d σ Hne; simpl; [done|].
  destruct (FrameItem (dfw_format d) item) as [e|buf] eqn:Hfr.
  - by rewrite (HandleItem_frame_error item e).
  - rewrite (HandleItem_framed item buf) by done.
    pose proof (writeToAll_ok_keeps_a_sink buf d σ Hne) as Hkeep.
    destruct (writeToAll buf d σ) as [[[e|] d'] σ']; simpl in *; [done|].
    apply IH. by apply Hkeep.
Qed.

(** X9.  As soon as there is an item or a sink, [HandleItems] is
    [HandleItem] called for each item in turn up to the first error. *)
Theorem HandleItems_is_HandleItem_in_turn items d σ :
  items ≠ [] ∨ writers d ≠ [] →
  HandleItems items d σ = handle_each items d σ.
Proof.
  intros Hsome. unfold HandleItems.
  destruct (writers d) as [|w ws] eqn:Hw; simpl.
  - destruct Hsome as [Hitems|?]; [|done].
    destruct items as [|item items]; [done|]. simpl.
    by rewrite HandleItem_no_writers.
  - apply HandleItems_range_each. by rewrite Hw.
Qed.

Lemma HandleItems_range_done_iff items : ∀ d σ,
  writers d ≠ [] →
  (HandleItems_range items d σ).1.1 = Some errDefaultFrameWatcherDone ↔
  writers (HandleItems_range items d σ).1.2 = [].
Proof.
  induction items as [|item items IH]; intros d σ Hne; simpl; [done|].
  destruct (FrameItem (dfw_format d) item) as [e|buf]; [done|].
  pose proof (writeToAll_error buf d σ Hne) as Herr.
  destruct (writeToAll buf d σ) as [[err d'] σ']; simpl in *. subst err.
  destruct (length (writers d') =? 0) eqn:Hlen; simpl.
  - apply length_zero_nil in Hlen. done.
  - apply IH. intros Hnil. by rewrite Hnil in Hlen.
Qed.

(** X10.  [HandleItems] returns the "all writers done" error exactly when
    no sink is left after the call; so after a nil result, and after a
    framing error, at least one sink is still registered. *)
Theorem HandleItems_done_iff_no_sink items d σ :
  (HandleItems items d σ).1.1 = Some errDefaultFrameWatcherDone ↔
  writers (HandleItems items d σ).1.2 = [].
Proof.
  unfold HandleItems. destruct (writers d) as [|w ws] eqn:Hw; simpl.
  - by rewrite Hw.
  - apply HandleItems_range_done_iff. by rewrite Hw.
Qed.

End WithEnv.

Lemma HandleItems_is_HandleItem_in_turn_witness :
  @HandleItems Demo.env [[Byte.x31]; []; [Byte.x32]]
     (Demo.fanout Demo.frameFails [0; 1; 2]) [] =
  (Some (@ErrExternal Demo.env 2), Demo.fanout Demo.frameFails [0; 2],
   [Demo.Wrote 0 [Byte.x31; Byte.x0a]; Demo.Wrote 2 [Byte.x31; Byte.x0a]]).
Proof.
  rewrite (@HandleItems_is_HandleItem_in_turn Demo.env
             [[Byte.x31]; []; [Byte.x32]]
             (Demo.fanout Demo.frameFails [0; 1; 2]) []
             ltac:(left; discriminate)).
  reflexivity.
Defined.

End FanoutFacts.

Module ChannelFacts.
Import Marshaled MarshaledFacts FanoutFacts.

Section WithEnv.
Context `{Env}.
Implicit Types (gw : marshaledWatcher) (d : defaultFrameWatcher) (σ : World).
Implicit Types (buf item : bytes) (w : Writer).

Lemma mw_init_formats w gw σ :
  format (mw_init w gw σ).1.2 = format gw ∧
  dfw_format (dfw (mw_init w gw σ).1.2) = dfw_format (dfw gw).
Proof.
  unfold mw_init. destruct (source_GetInit σ) as [data σ0].
  pose proof (dfw_init_registers_iff_ok data w (dfw gw) σ0) as (_ & Hf & _).
  destruct (dfw_init data w (dfw gw) σ0) as [[[e|] d'] σ']; simpl in *;
    [done|]. by destruct (length (writers d') =? 1).
Qed.

Lemma handle_range_format item iws : ∀ i failed d σ,
  dfw_format (handle_range item i iws failed d σ).1.2 = dfw_format d.
Proof.
  induction iws as [|[] iws IH]; intros i failed d σ; simpl; [done|].
  pose proof (HandleItem_shrinks item d σ) as [_ Hf].
  destruct (HandleItem item d σ) as [[[e|] d'] σ']; simpl in *;
    rewrite IH; done.
Qed.

Lemma mw_emit_formats data gw σ :
  format (mw_emit data gw σ).1.2 = format gw ∧
  dfw_format (dfw (mw_emit data gw σ).1.2) = dfw_format (dfw gw).
Proof.
  unfold mw_emit. destruct (length (watchers gw) =? 0); [done|].
  destruct (MarshalItem (format gw) data) as [e|item]; [done|].
  pose proof (handle_range_format item (watchers gw) 0 [] (dfw gw) σ) as Hf.
  destruct (handle_range item 0 (watchers gw) [] (dfw gw) σ)
    as [[[|f0 ftl] d'] σ']; simpl in *; done.
Qed.

Lemma run_channel_consistent_from fmt calls : ∀ gw σ,
  (∀ b, ∃ buf, FrameItem fmt b = inr buf) →
  dfw_format (dfw gw) = fmt → consistent gw →
  consistent (run_channel calls gw σ).1.
Proof.
  induction calls as [|[w|data] calls IH]; intros gw σ Hfr Hfmt Hc;
    cbn [run_channel]; [done| |].
  - pose proof (mw_init_consistent w gw σ Hc) as Hc'.
    pose proof (mw_init_formats w gw σ) as [_ Hf'].
    destruct (mw_init w gw σ) as [[e gw'] σ']. simpl in *.
    apply IH; [done|congruence|done].
  - assert (Hc' : consistent (mw_emit data gw σ).1.2).
    { apply mw_emit_consistent; [done|]. intros item _.
      rewrite Hfmt. apply Hfr. }
    pose proof (mw_emit_formats data gw σ) as [_ Hf'].
    destruct (mw_emit data gw σ) as [[b gw'] σ']. simpl in *.
    apply IH; [done|congruence|done].
Qed.

(** X11.  Over a format whose framing never fails, a channel is
    registered for items exactly while it holds a sink: after any history
    of attaches and emits on a new channel, either the fan-out holds a
    sink and is the one registered consumer, or it holds none and nothing
    is registered. *)
Theorem run_channel_consistent fmt calls σ :
  (∀ b, ∃ buf, FrameItem fmt b = inr buf) →
  consistent (run_channel calls (newMarshaledWatcher fmt) σ).1.
Proof.
  intros Hfr. apply (run_channel_consistent_from fmt); [done|done|].
  apply newMarshaledWatcher_consistent.
Qed.

(** X12.  On a live channel an item that marshals and frames is marshaled
    once, framed once, and the framed bytes are written once to every sink
    in order; the sinks left are those whose write succeeded, and [emit]
    tells whether there is one. *)
Theorem mw_emit_delivers data gw σ item buf :
  live gw →
  MarshalItem (format gw) data = inr item →
  FrameItem (dfw_format (dfw gw)) item = inr buf →
  (mw_emit data gw σ).2 = write_each buf (writers (dfw gw)) σ ∧
  writers (dfw (mw_emit data gw σ).1.2) =
    survivors (write_failures buf (writers (dfw gw)) σ) (writers (dfw gw)) ∧
  (mw_emit data gw σ).1.1 =
    negb (forallb id (write_failures buf (writers (dfw gw)) σ)).
Proof.
  intros [Hws Hw] Hm Hfr.
  pose proof (writeToAll_writes_each buf (dfw gw) σ) as Hworld.
  pose proof (writeToAll_writers buf (dfw gw) σ) as Hsurv.
  pose proof (writeToAll_error buf (dfw gw) σ Hw) as Herr.
  pose proof (write_failures_length buf (writers (dfw gw)) σ) as Hlen.
  unfold mw_emit. rewrite Hws, Hm. cbn [length Nat.eqb handle_range
    iw_HandleItem].
  rewrite (HandleItem_framed item buf) by done.
  destruct (writeToAll buf (dfw gw) σ) as [[err d'] σ']. simpl in *.
  subst err σ'.
  assert (Hall : (length (writers d') =? 0) =
                 forallb id (write_failures buf (writers (dfw gw)) σ)).
  { rewrite Hsurv. clear -Hlen Hw.
    revert Hlen. generalize (write_failures buf (writers (dfw gw)) σ).
    induction (writers (dfw gw)) as [|w0 ws IH]; [done|].
    intros [|[] flags] Hlen; simpl in *; try done.
    injection Hlen as Hlen. destruct ws as [|w1 ws].
    - by destruct flags.
    - by apply IH. }
  rewrite <- Hall.
  destruct (length (writers d') =? 0) eqn:Hlen0; simpl; by rewrite ?Hlen0.
Qed.

End WithEnv.

Lemma run_channel_consistent_witness :
  consistent
    (@run_channel Demo.env
       [@Attach Demo.env 0; @Emit Demo.env 2; @Attach Demo.env 1;
        @Emit Demo.env 0; @Emit Demo.env 3; @Attach Demo.env 3]
       (Demo.channel Demo.lineFormat) []).1.
Proof.
  apply (@run_channel_consistent Demo.env Demo.lineFormat).
  intros b. eexists. reflexivity.
Defined.

Lemma mw_emit_delivers_witness :
  let gw := (@mw_init Demo.env 1
               (@mw_init Demo.env 0 (Demo.channel Demo.lineFormat) []).1.2
               []).1.2 in
  (@mw_emit Demo.env 2 gw []).2 =
    [Demo.Wrote 0 [Byte.x31; Byte.x31; Byte.x0a]] ∧
  writers (dfw (@mw_emit Demo.env 2 gw []).1.2) = [0].
Proof.
  pose proof (@mw_emit_delivers Demo.env 2
                (@mw_init Demo.env 1
                   (@mw_init Demo.env 0 (Demo.channel Demo.lineFormat) []).1.2
                   []).1.2
                [] [Byte.x31; Byte.x31] [Byte.x31; Byte.x31; Byte.x0a]
                ltac:(split; [reflexivity|discriminate]) eq_refl eq_refl)
    as (H1 & H2 & _).
  split; [exact H1|exact H2].
Defined.

End ChannelFacts.

(* ===================================================================== *)
(** ** More on the multiplexer *)
(* ===================================================================== *)

Module MultiplexerFacts.
Import Marshaled MarshaledFacts FanoutFacts ChannelFacts.

Section WithEnv.
Context `{Env}.
Local Abbreviation Format := (GenericDataFormat Data ExtErr).
Implicit Types (mds : MarshaledDataSource) (σ : World) (w : Writer).
Implicit Types (ws : gmap string marshaledWatcher) (k s : string).
Implicit Types (fmts : gmap string Format).

Lemma register_formats_lookup entries : ∀ names ws k,
  NoDup entries.*1 →
  (register_formats entries names ws).2 !! k =
    match (list_to_map entries : gmap string Format) !! k with
    | Some f => Some (newMarshaledWatcher f)
    | None => ws !! k
    end.
Proof.
  induction entries as [|[name fmt] entries IH]; intros names ws k Hnd;
    simpl; [done|].
  apply NoDup_cons in Hnd as [Hfresh Hnd]. rewrite IH by done.
  destruct (decide (name = k)) as [->|Hne].
  - rewrite lookup_insert_eq.
    by rewrite (not_elem_of_list_to_map_1 _ _ Hfresh), lookup_insert_eq.
  - rewrite !lookup_insert_ne by done. done.
Qed.

Lemma map_to_list_keys fmts k :
  k ∈ (map_to_list fmts).*1 ↔ is_Some (fmts !! k).
Proof.
  rewrite list_elem_of_fmap. split.
  - intros [[k' f] [-> Hin]]. apply elem_of_map_to_list in Hin. by eexists.
  - intros [f Hf]. exists (k, f). split; [done|].
    by apply elem_of_map_to_list.
Qed.

(** X13.  The channels of a new source: one per entry of the caller's
    map, made from the caller's format; besides, under "json" the
    line-delimited JSON format and, when the source has a template, under
    "text" the templated format, each only if the caller gave no entry of
    that name; and no other. *)
Theorem NewMarshaledDataSource_channels fmts k :
  mds_watchers (NewMarshaledDataSource fmts) !! k =
    match fmts !! k with
    | Some f => Some (newMarshaledWatcher f)
    | None =>
      if decide (k = "json"%string)
      then Some (newMarshaledWatcher LDJSONMarshal)
      else if decide (k = "text"%string)
      then (λ tmpl, newMarshaledWatcher (NewTemplatedMarshal tmpl))
             <$> source_TextTemplate
      else None
    end.
Proof.
  unfold NewMarshaledDataSource.
  destruct (fmts !! "json"%string) as [fj|] eqn:Hj;
    destruct source_TextTemplate as [tmpl|];
    destruct (fmts !! "text"%string) as [ft|] eqn:Hx.
  all: match goal with
       | |- context [register_formats ?es ?ns ?m] =>
         pose proof (register_formats_lookup es ns m k
                       (NoDup_fst_map_to_list fmts)) as Hl;
         destruct (register_formats es ns m) as [n3 w3]
       end; simpl in *; rewrite Hl, list_to_map_to_list.
  all: destruct (fmts !! k) as [f|] eqn:Hk; [done|].
  all: repeat case_decide; simplify_map_eq; done.
Qed.

(** The names a new source lists. *)
Lemma NewMarshaledDataSource_names fmts :
  Formats (NewMarshaledDataSource fmts) =
    (match fmts !! "json"%string with
     | None => ["json"%string] | Some _ => [] end) ++
    (match source_TextTemplate, fmts !! "text"%string with
     | Some _, None => ["text"%string] | _, _ => [] end) ++
    (map_to_list fmts).*1.
Proof.
  unfold Formats, NewMarshaledDataSource.
  destruct (fmts !! "json"%string) as [fj|];
    destruct source_TextTemplate as [tmpl|];
    destruct (fmts !! "text"%string) as [ft|].
  all: match goal with
       | |- context [register_formats ?es ?ns ?m] =>
         pose proof (register_formats_names es ns m) as Hn;
         destruct (register_formats es ns m) as [n3 w3]
       end; simpl in *; by subst n3.
Qed.

(** Membership in a short explicit list of other names is absurd. *)
Local Ltac not_listed H :=
  repeat (apply elem_of_cons in H as [H|H]; [done|]);
  by apply elem_of_nil in H.

(** X14.  [Formats] of a new source lists each name once, and lists
    exactly the names that have a channel. *)
Theorem Formats_are_the_channels fmts k :
  NoDup (Formats (NewMarshaledDataSource fmts)) ∧
  (k ∈ Formats (NewMarshaledDataSource fmts) ↔
   is_Some (mds_watchers (NewMarshaledDataSource fmts) !! k)).
Proof.
  rewrite NewMarshaledDataSource_names, NewMarshaledDataSource_channels.
  split.
  - pose proof (NoDup_fst_map_to_list fmts) as Hnd.
    assert (Hj : fmts !! "json"%string = None →
                 "json"%string ∉ (map_to_list fmts).*1).
    { intros Hj Hin. apply map_to_list_keys in Hin. rewrite Hj in Hin.
      by destruct Hin. }
    assert (Hx : fmts !! "text"%string = None →
                 "text"%string ∉ (map_to_list fmts).*1).
    { intros Hx Hin. apply map_to_list_keys in Hin. rewrite Hx in Hin.
      by destruct Hin. }
    destruct (fmts !! "json"%string), source_TextTemplate,
      (fmts !! "text"%string); simpl; try done.
    all: repeat (apply NoDup_cons; split); try done.
    all: try (intros Hin; apply elem_of_cons in Hin as [?|Hin]; [done|]);
      try (by apply Hj); try (by apply Hx).
  - rewrite !elem_of_app, map_to_list_keys.
    destruct (fmts !! k) as [f|] eqn:Hk.
    + split; [by eexists|]. intros _. right. right. by eexists.
    + repeat case_decide; subst; rewrite ?Hk.
      * split; [by eexists|]. intros _. left. apply elem_of_cons. by left.
      * destruct source_TextTemplate; simpl.
        -- split; [by eexists|]. intros _. right. left.
           apply elem_of_cons. by left.
        -- split; [|by intros []].
           intros [Hin|[Hin|[? ?]]]; try done.
           ++ destruct (fmts !! "json"%string); not_listed Hin.
           ++ not_listed Hin.
      * split; [|by intros []].
        intros [Hin|[Hin|[? ?]]]; try done.
        -- destruct (fmts !! "json"%string); not_listed Hin.
        -- destruct source_TextTemplate, (fmts !! "text"%string);
             not_listed Hin.
Qed.

Lemma Watch_unsupported_iff s w mds σ :
  (Watch s w mds σ).1.1 = Some ErrUnsupportedFormat ↔
  mds_watchers mds !! ToLower s = None.
Proof.
  unfold Watch. cbv zeta.
  destruct (mds_watchers mds !! ToLower s) as [gw|]; [|done].
  split; [|done]. intros Herr.
  destruct (mw_init_error w gw σ) as [Hok|[e He]];
    destruct (mw_init w gw σ) as [[err gw'] σ']; simpl in *; subst err.
  - by destruct (negb (watching mds)).
  - done.
Qed.

(** X15.  On a new source, [Watch] answers [ErrUnsupportedFormat] exactly
    for the names that, lower-cased, are not listed by [Formats]; it then
    changes neither the source nor the world. *)
Theorem Watch_unsupported_iff_unlisted fmts s w σ :
  let mds := NewMarshaledDataSource fmts in
  ((Watch s w mds σ).1.1 = Some ErrUnsupportedFormat ↔
   ToLower s ∉ Formats mds) ∧
  match (Watch s w mds σ).1.1 with
  | Some ErrUnsupportedFormat =>
    Watch s w mds σ = (Some ErrUnsupportedFormat, mds, σ)
  | _ => True
  end.
Proof.
  cbv zeta.
  pose proof (Formats_are_the_channels fmts (ToLower s)) as [_ Hin].
  split.
  - rewrite Watch_unsupported_iff, Hin. by rewrite eq_None_not_Some.
  - destruct (Watch s w (NewMarshaledDataSource fmts) σ).1.1
      as [[| | |e]|] eqn:Herr; try done.
    apply Watch_unsupported_iff in Herr. unfold Watch. cbv zeta.
    by rewrite Herr.
Qed.

(** X16.  On a new source, [Get] answers [ErrUnsupportedFormat] exactly
    for the names that, lower-cased, are not a key of the map the caller
    gave to the constructor (the built-in formats do not count); it then
    neither reads the source nor writes. *)
Theorem Get_unsupported_iff_not_given fmts s w σ :
  let mds := NewMarshaledDataSource fmts in
  ((Get s w mds σ).1 = Some ErrUnsupportedFormat ↔
   fmts !! ToLower s = None) ∧
  match (Get s w mds σ).1 with
  | Some ErrUnsupportedFormat =>
    Get s w mds σ = (Some ErrUnsupportedFormat, σ)
  | _ => True
  end.
Proof.
  cbv zeta. unfold Get. rewrite NewMarshaledDataSource_formats.
  destruct (fmts !! ToLower s) as [fmt|]; [|done].
  destruct (source_Get σ) as [[data|] σ1]; [|done].
  destruct (MarshalGet fmt data) as [e|buf]; [done|].
  by destruct (io_Write w buf σ1) as [[e|] σ2].
Qed.

(** X17.  What [emit] returns is the [watching] flag it leaves: true and
    still subscribed, or false and no longer so. *)
Theorem emit_returns_watching names data mds σ :
  (emit names data mds σ).1.1 = watching (emit names data mds σ).1.2.
Proof.
  unfold emit. destruct (watching mds) eqn:Hw; simpl; [|done].
  destruct (emit_range data names (mds_watchers mds) false σ)
    as [[[] ws'] σ']; simpl; done.
Qed.

Lemma emit_range_dom data names : ∀ ws any σ,
  dom (emit_range data names ws any σ).1.2 = dom ws.
Proof.
  induction names as [|name names IH]; intros ws any σ; simpl; [done|].
  destruct (ws !! name) as [gw|] eqn:Hgw; [|apply IH].
  destruct (mw_emit data gw σ) as [[b gw'] σ']. rewrite IH.
  apply dom_insert_lookup_L. by eexists.
Qed.

(** X18.  [emit] makes and drops no channel and leaves the format table
    alone: the formats, the listed names and the set of channel names are
    the same after it. *)
Theorem emit_keeps_channel_set names data mds σ :
  let mds' := (emit names data mds σ).1.2 in
  formats mds' = formats mds ∧ formatNames mds' = formatNames mds ∧
  dom (mds_watchers mds') = dom (mds_watchers mds).
Proof.
  cbv zeta. unfold emit. destruct (negb (watching mds)); [done|].
  pose proof (emit_range_dom data names (mds_watchers mds) false σ) as Hdom.
  destruct (emit_range data names (mds_watchers mds) false σ)
    as [[[] ws'] σ']; simpl in *; done.
Qed.

(** X19.  [Watch] touches one channel only: the formats, the listed names
    and the set of channel names stay the same, and every channel but the
    one named (lower-cased) is as before. *)
Theorem Watch_touches_one_channel s w mds σ k :
  k ≠ ToLower s →
  let mds' := (Watch s w mds σ).1.2 in
  formats mds' = formats mds ∧ formatNames mds' = formatNames mds ∧
  dom (mds_watchers mds') = dom (mds_watchers mds) ∧
  mds_watchers mds' !! k = mds_watchers mds !! k.
Proof.
  intros Hne. cbv zeta. unfold Watch. cbv zeta.
  destruct (mds_watchers mds !! ToLower s) as [gw|] eqn:Hgw; [|done].
  assert (Hdom : ∀ gw', dom (<[ToLower s := gw']> (mds_watchers mds)) =
                        dom (mds_watchers mds)).
  { intros gw'. apply dom_insert_lookup_L. by eexists. }
  destruct (mw_init w gw σ) as [[[e|] gw'] σ']; simpl.
  - repeat split; [apply Hdom|]. by rewrite lookup_insert_ne.
  - destruct (negb (watching mds)); simpl;
      (repeat split; [apply Hdom|]); by rewrite lookup_insert_ne.
Qed.

Lemma mw_init_failure_keeps w gw σ :
  (mw_init w gw σ).1.1 ≠ None → (mw_init w gw σ).1.2 = gw.
Proof.
  unfold mw_init. destruct (source_GetInit σ) as [data σ0].
  pose proof (dfw_init_registers_iff_ok data w (dfw gw) σ0) as (Hd & _).
  destruct (dfw_init data w (dfw gw) σ0) as [[[e|] d'] σ']; simpl in *.
  - intros _. subst d'. by destruct gw.
  - by destruct (length (writers d') =? 1).
Qed.

(** X20.  A [Watch] that returns an error changes nothing: no sink is
    registered on any channel and the [watching] flag is as before. *)
Theorem failed_Watch_changes_nothing s w mds σ :
  (Watch s w mds σ).1.1 ≠ None → (Watch s w mds σ).1.2 = mds.
Proof.
  unfold Watch. cbv zeta.
  destruct (mds_watchers mds !! ToLower s) as [gw|] eqn:Hgw; [|done].
  pose proof (mw_init_failure_keeps w gw σ) as Hkeep.
  destruct (mw_init w gw σ) as [[[e|] gw'] σ']; simpl in *.
  - intros _. rewrite Hkeep by done. rewrite insert_id by done.
    by destruct mds.
  - by destruct (negb (watching mds)).
Qed.

(** X21.  A [Watch] that succeeds on a consistent channel leaves that
    channel live with the new sink last in its list, and leaves the source
    watching; it calls the data source's [Watch] only if the source was not
    being watched already. *)
Theorem Watch_makes_channel_live s w mds σ gw :
  mds_watchers mds !! ToLower s = Some gw → consistent gw →
  (Watch s w mds σ).1.1 = None →
  watching (Watch s w mds σ).1.2 = true ∧
  (∃ gw', mds_watchers (Watch s w mds σ).1.2 !! ToLower s = Some gw' ∧
          live gw' ∧ writers (dfw gw') = writers (dfw gw) ++ [w]) ∧
  (Watch s w mds σ).2 =
    (if watching mds then (mw_init w gw σ).2
     else source_Watch (mw_init w gw σ).2).
Proof.
  intros Hgw Hc. unfold Watch. cbv zeta. rewrite Hgw.
  pose proof (mw_init_consistent w gw σ Hc) as Hc'.
  assert (Hws : (mw_init w gw σ).1.1 = None →
                writers (dfw (mw_init w gw σ).1.2) = writers (dfw gw) ++ [w]).
  { unfold mw_init. destruct (source_GetInit σ) as [data σ0].
    pose proof (dfw_init_registers_iff_ok data w (dfw gw) σ0) as (Hd & _).
    destruct (dfw_init data w (dfw gw) σ0) as [[[e|] d'] σ']; simpl in *;
      [done|]. by destruct (length (writers d') =? 1). }
  destruct (mw_init w gw σ) as [[[e|] gw'] σ']; simpl in *; [done|].
  intros _. specialize (Hws eq_refl).
  assert (Hlive : live gw').
  { destruct Hc' as [[_ Hnil]|Hl]; [|done].
    rewrite Hnil in Hws. by destruct (writers (dfw gw)). }
  destruct (watching mds); simpl; rewrite lookup_insert_eq;
    (split; [done|]); (split; [by exists gw'|done]).
Qed.

Lemma emit_range_sound data names : ∀ ws any σ,
  (∀ k gw, ws !! k = Some gw → consistent gw ∧ always_frames gw) →
  ∀ k gw, (emit_range data names ws any σ).1.2 !! k = Some gw →
          consistent gw ∧ always_frames gw.
Proof.
  induction names as [|name names IH]; intros ws any σ Hs; simpl; [done|].
  destruct (ws !! name) as [gw0|] eqn:Hgw0; [|by apply IH].
  destruct (Hs _ _ Hgw0) as [Hc Hfr].
  pose proof (mw_emit_consistent data gw0 σ Hc (λ item _, Hfr item)) as Hc'.
  pose proof (mw_emit_formats data gw0 σ) as [_ Hf'].
  destruct (mw_emit data gw0 σ) as [[b gw'] σ']. simpl in *.
  apply IH. intros k gw Hk.
  destruct (decide (name = k)) as [->|Hne].
  - rewrite lookup_insert_eq in Hk. injection Hk as <-.
    split; [done|]. unfold always_frames. by rewrite Hf'.
  - rewrite lookup_insert_ne in Hk by done. by apply (Hs k).
Qed.

(** X22.  On a source whose formats frame every item, [Watch] and [emit]
    keep every channel consistent: after either call each channel is
    registered for items exactly when it holds a sink. *)
Theorem Watch_and_emit_keep_channels_consistent s w names data mds σ :
  sound mds →
  sound (Watch s w mds σ).1.2 ∧ sound (emit names data mds σ).1.2.
Proof.
  intros Hs. split.
  - unfold Watch. cbv zeta.
    destruct (mds_watchers mds !! ToLower s) as [gw0|] eqn:Hgw0; [|done].
    destruct (Hs _ _ Hgw0) as [Hc Hfr].
    pose proof (mw_init_consistent w gw0 σ Hc) as Hc'.
    pose proof (mw_init_formats w gw0 σ) as [_ Hf'].
    assert (Hins : ∀ k gw,
              <[ToLower s := (mw_init w gw0 σ).1.2]> (mds_watchers mds) !! k
                = Some gw → consistent gw ∧ always_frames gw).
    { intros k gw Hk. destruct (decide (ToLower s = k)) as [<-|Hne].
      - rewrite lookup_insert_eq in Hk. injection Hk as <-.
        split; [done|]. unfold always_frames. by rewrite Hf'.
      - rewrite lookup_insert_ne in Hk by done. by apply (Hs k). }
    destruct (mw_init w gw0 σ) as [[[e|] gw'] σ']; simpl in *; [done|].
    by destruct (negb (watching mds)).
  - unfold emit. destruct (negb (watching mds)); [done|].
    pose proof (emit_range_sound data names (mds_watchers mds) false σ Hs)
      as Hs'.
    destruct (emit_range data names (mds_watchers mds) false σ)
      as [[[] ws'] σ']; simpl in *; done.
Qed.

(** X23.  For a name made of ASCII bytes nothing is used of the library:
    [Get] and [Watch] equal the same call with the name lower-cased byte
    by byte, and an entry whose name holds an upper-case ASCII letter is
    never looked at by such a call. *)
Theorem ascii_names_are_lower_cased (s k : string) w mds σ :
  all_ascii s = true → has_upper k = true →
  ToLower s = lower_bytes s ∧
  Get s w mds σ = Get (lower_bytes s) w mds σ ∧
  Watch s w mds σ = Watch (lower_bytes s) w mds σ ∧
  Get s w (forget k mds) σ = Get s w mds σ ∧
  Watch s w (forget k mds) σ =
    (let '(e, mds', σ') := Watch s w mds σ in (e, forget k mds', σ')).
Proof.
  intros Hs Hk.
  assert (Hlow : ToLower s = lower_bytes s) by (unfold ToLower; by rewrite Hs).
  assert (Hidem : ToLower (lower_bytes s) = lower_bytes s).
  { unfold ToLower. by rewrite lower_bytes_all_ascii, Hs, lower_bytes_idem. }
  assert (Hne : k ≠ ToLower s).
  { intros ->. by rewrite Hlow, lower_bytes_has_no_upper in Hk. }
  split; [done|].
  split; [unfold Get; by rewrite Hidem, Hlow|].
  split; [unfold Watch; by rewrite Hidem, Hlow|].
  split.
  - unfold Get, forget; simpl. by rewrite lookup_delete_ne.
  - unfold Watch, forget; simpl. rewrite lookup_delete_ne by done.
    destruct (mds_watchers mds !! ToLower s) as [gw|]; [|done].
    destruct (mw_init w gw σ) as [[[e|] gw'] σ']; simpl.
    + by rewrite delete_insert_ne.
    + destruct (negb (watching mds)); simpl; by rewrite delete_insert_ne.
Qed.

End WithEnv.

Lemma ascii_names_are_lower_cased_witness :
  let mds := @mkMds Demo.env {["json"%string := Demo.lineFormat;
                               "XML"%string := Demo.lineFormat]}
               ["json"%string; "XML"%string]
               {["json"%string := Demo.channel Demo.lineFormat;
                 "XML"%string := Demo.channel Demo.lineFormat]} false in
  @Get Demo.env "JSON" 0 mds [] = @Get Demo.env "json" 0 mds [] ∧
  @Get Demo.env "JSON" 0 (forget "XML" mds) [] = @Get Demo.env "JSON" 0 mds [].
Proof.
  pose proof (@ascii_names_are_lower_cased Demo.env "JSON" "XML" 0
                (@mkMds Demo.env {["json"%string := Demo.lineFormat;
                                   "XML"%string := Demo.lineFormat]}
                   ["json"%string; "XML"%string]
                   {["json"%string := Demo.channel Demo.lineFormat;
                     "XML"%string := Demo.channel Demo.lineFormat]} false)
                [] eq_refl eq_refl) as (_ & H1 & _ & H3 & _).
  split; [exact H1|exact H3].
Defined.

Lemma Watch_and_emit_keep_channels_consistent_witness :
  let mds := @mkMds Demo.env ∅ ["json"%string]
               {["json"%string := Demo.channel Demo.lineFormat]} true in
  sound (@Watch Demo.env "json" 0 mds []).1.2 ∧
  sound (@emit Demo.env ["json"%string] 3 mds []).1.2.
Proof.
  apply (@Watch_and_emit_keep_channels_consistent Demo.env).
  intros k gw Hk. simpl in Hk.
  apply lookup_singleton_Some in Hk as [_ <-].
  split; [by left|]. intros b. eexists. reflexivity.
Defined.

Lemma Watch_touches_one_channel_witness :
  let mds := @mkMds Demo.env ∅ ["json"%string; "text"%string]
               {["json"%string := Demo.channel Demo.lineFormat;
                 "text"%string := Demo.channel Demo.frameFails]} false in
  mds_watchers (@Watch Demo.env "Text" 0 mds []).1.2 !! "json"%string =
  Some (Demo.channel Demo.lineFormat).
Proof.
  pose proof (@Watch_touches_one_channel Demo.env "Text" 0
                (@mkMds Demo.env ∅ ["json"%string; "text"%string]
                   {["json"%string := Demo.channel Demo.lineFormat;
                     "text"%string := Demo.channel Demo.frameFails]} false)
                [] "json"%string ltac:(discriminate)) as (_ & _ & _ & H4).
  cbv zeta. rewrite H4. reflexivity.
Defined.

Lemma failed_Watch_changes_nothing_witness :
  (@Watch Demo.env "yaml" 0 (@NewMarshaledDataSource Demo.env ∅) []).1.2 =
  @NewMarshaledDataSource Demo.env ∅.
Proof.
  apply (@failed_Watch_changes_nothing Demo.env).
  vm_compute. discriminate.
Defined.

Lemma Watch_makes_channel_live_witness :
  let mds := @mkMds Demo.env ∅ ["json"%string]
               {["json"%string := Demo.channel Demo.lineFormat]} false in
  watching (@Watch Demo.env "JSON" 4 mds []).1.2 = true ∧
  (@Watch Demo.env "JSON" 4 mds []).2 = [Demo.Watched].
Proof.
  pose proof (@Watch_makes_channel_live Demo.env "JSON" 4
                (@mkMds Demo.env ∅ ["json"%string]
                   {["json"%string := Demo.channel Demo.lineFormat]} false)
                [] (Demo.channel Demo.lineFormat)
                (lookup_singleton_eq _ _)
                (newMarshaledWatcher_consistent _) eq_refl)
    as (H1 & _ & H3).
  split; [exact H1|exact H3].
Defined.

End MultiplexerFacts.
